(** * AFUZZ: a shallow embedding of [afuzz.py] and its specification

    The script substitutes every line of a wordlist for the placeholder
    ['@'] of a URL template, issues one HTTP GET per line, and records the
    URLs that answered 200 in a log file.  The embedding follows the
    source function by function:

    - Python [str] values are lists of Unicode code points ([N]);
    - the file system, the terminal and the network are an explicit
      [world] that every statement transforms;
    - [sys.exit], uncaught exceptions and normal return are the three
      constructors of [result];
    - the network is an oracle assigning a [response] to every probe, and
      the completion order of the concurrent tasks is an oracle as well;
    - [urlparse], a library function, is a parameter.

    The script is embedded twice.  The first embedding is the script
    where the terminal, the keyboard and an open handle do what they are
    asked: paths are flat names, so a path that names nothing can always
    be created; [print], [write] on an open handle and [input] do not
    fail; a file holds text, so decoding does not fail either.  Opening a
    file does fail where Python makes it fail on the nodes the script
    itself tells apart with [os.path.isfile] and [os.path.exists]:
    directories, and files without the permission.  The properties of
    the requests, of the strings, of the gates and of the truncation are
    stated on it.

    The second embedding, [Faults], lets each of these calls raise and
    keeps the locals of the fuzzing functions in the state, so that the
    [try] of [sync_fuzz], which covers [print] and [write], and the loop
    of [async_fuzz], which has none, behave as written.  The two
    embeddings coincide when nothing fails
    ([sound_run_is_the_plain_run]).  The properties of the count, of the
    endings of the process and of the two modes compared are stated on
    the second.  *)

From stdpp Require Import gmap list numbers strings.

Local Open Scope N_scope.

(** ** Python strings *)

Module PyStr.

(** A [str] is a sequence of code points. *)
Abbreviation str := (list N).

(** A literal of the source text, as code points. *)
Definition lit (s : string) : str :=
  map Ascii.N_of_ascii (String.list_ascii_of_string s).

Definition LF : N := 10.
Definition CR : N := 13.
Definition AT : N := 64.

(** [str.isspace] on one character: CPython's [_PyUnicode_IsWhitespace]. *)
Definition isspace (c : N) : bool :=
  ((9 <=? c) && (c <=? 13))
  || ((28 <=? c) && (c <=? 32))
  || (c =? 133) || (c =? 160) || (c =? 5760)
  || ((8192 <=? c) && (c <=? 8202))
  || (c =? 8232) || (c =? 8233) || (c =? 8239) || (c =? 8287)
  || (c =? 12288).

Fixpoint lstrip (s : str) : str :=
  match s with
  | [] => []
  | c :: s' => if isspace c then lstrip s' else s
  end.

Definition rstrip (s : str) : str := reverse (lstrip (reverse s)).

(** [s.strip()] with no argument. *)
Definition strip (s : str) : str := rstrip (lstrip s).

(** [c.lower()] restricted to the ASCII letters; no other code point
    lowers to ['y'], the only letter the script compares with. *)
Definition lower_char (c : N) : N :=
  if (65 <=? c) && (c <=? 90) then c + 32 else c.

Definition lower (s : str) : str := map lower_char s.

Fixpoint starts_with (p s : str) : bool :=
  match p, s with
  | [], _ => true
  | _ :: _, [] => false
  | a :: p', b :: s' => (a =? b) && starts_with p' s'
  end.

(** Left-to-right scan of [str.replace]: [skip] characters of a matched
    occurrence are still to be dropped. *)
Fixpoint replace_from (old new : str) (skip : nat) (s : str) : str :=
  match s with
  | [] => []
  | c :: s' =>
      match skip with
      | S k => replace_from old new k s'
      | O =>
          if starts_with old s
          then new ++ replace_from old new (length old - 1) s'
          else c :: replace_from old new 0 s'
      end
  end.

(** [s.replace(old, new)]: every non-overlapping occurrence, from the
    left; an empty [old] matches between any two characters. *)
Definition replace (old new s : str) : str :=
  match old with
  | [] => new ++ flat_map (fun c => c :: new) s
  | _ :: _ => replace_from old new 0 s
  end.

(** [c in s] for a one-character [c]. *)
Definition contains (c : N) (s : str) : bool := existsb (N.eqb c) s.

(** [s.count(c)] for a one-character [c]. *)
Definition count (c : N) (s : str) : nat := length (filter (eq c) s).

(** Text-mode decoding of line ends ([newline=None]): CR LF and a lone
    CR both read as LF. *)
Fixpoint universal_newlines (s : str) : str :=
  match s with
  | [] => []
  | c :: s' =>
      if c =? CR
      then LF :: match s' with
                 | d :: s'' =>
                     if d =? LF then universal_newlines s''
                     else universal_newlines s'
                 | [] => []
                 end
      else c :: universal_newlines s'
  end.

(** Splitting after every LF; [cur] is the line being read. *)
Fixpoint split_lines (cur : str) (s : str) : list str :=
  match s with
  | [] => match cur with [] => [] | _ :: _ => [cur] end
  | c :: s' =>
      if c =? LF then (cur ++ [LF]) :: split_lines [] s'
      else split_lines (cur ++ [c]) s'
  end.

(** [f.readlines()] on the content of a text file: the lines keep their
    terminator. *)
Definition readlines (data : str) : list str :=
  split_lines [] (universal_newlines data).

End PyStr.

Import PyStr.

(** ** The world the script runs in *)

(** Exceptions the embedding distinguishes.  The first four come from the
    file system and from [asyncio]; the others stand for what a transport
    may raise ([requests] and [aiohttp] errors, time-outs, DNS failures). *)
Inductive exn :=
  | FileNotFoundError
  | IsADirectoryError
  | PermissionError
  | InvalidStateError
  | ConnectionError
  | Timeout
  | NameResolutionError
  | EOFError
  | UnicodeEncodeError
  | OSError.

(** What one GET yields within its ten-second time-out: a response with
    a status code, or an exception. *)
Inductive response :=
  | Status (code : N)
  | Failed (e : exn).

(** A path names a directory or a regular file with its permissions and
    its text. *)
Inductive node :=
  | Dir
  | File (readable writable : bool) (data : str).

(** Lines of the terminal, one constructor per [print] of the source. *)
Inductive msg :=
  | MGreen (url : str)
  | MSummary (success_count : nat)
  | MInvalidUrl
  | MNoPlaceholder
  | MWordlistNotFound (wordlist : str)
  | MPrompt (output : str)
  | MAborted
  | MReadError (e : exn).

(** What the network sees: probe number [i] is sent, probe number [i]
    has resolved. *)
Inductive event :=
  | Sent (i : nat) (url : str)
  | Resolved (i : nat) (url : str) (r : response).

Record world := World {
  fs : gmap (list N) node;
  stdout : list msg;
  net : list event
}.

Definition set_fs (f : gmap (list N) node → gmap (list N) node) (w : world) :=
  World (f (fs w)) (stdout w) (net w).
Definition add_stdout (ms : list msg) (w : world) :=
  World (fs w) (stdout w ++ ms) (net w).
Definition add_net (evs : list event) (w : world) :=
  World (fs w) (stdout w) (net w ++ evs).

(** How a call ends: it returns, [sys.exit(code)] unwinds it
    ([SystemExit] is not an [Exception]), or an [Exception] leaves it. *)
Inductive result (A : Type) :=
  | Ok (a : A)
  | Exit (code : Z)
  | Raise (e : exn).
Arguments Ok {A} a.
Arguments Exit {A} code.
Arguments Raise {A} e.

(** Statements: transformers of the world with a result. *)
Definition M (A : Type) : Type := world → result A * world.

#[global] Instance M_ret : MRet M := λ A a w, (Ok a, w).
#[global] Instance M_bind : MBind M := λ A B k m w,
  match m w with
  | (Ok a, w') => k a w'
  | (Exit c, w') => (Exit c, w')
  | (Raise e, w') => (Raise e, w')
  end.

(** [try: body / except Exception as e: handler e]. *)
Definition catch {A} (body : M A) (handler : exn → M A) : M A := λ w,
  match body w with
  | (Raise e, w') => handler e w'
  | r => r
  end.

Definition sys_exit {A} (code : Z) : M A := λ w, (Exit code, w).
Definition raise {A} (e : exn) : M A := λ w, (Raise e, w).

Definition print (m : msg) : M unit := λ w, (Ok tt, add_stdout [m] w).
Definition emit (ev : event) : M unit := λ w, (Ok tt, add_net [ev] w).


(** *** File system calls *)

Definition isfile (p : str) : M bool := λ w,
  (Ok match fs w !! p with Some (File _ _ _) => true | _ => false end, w).

Definition exists_ (p : str) : M bool := λ w,
  (Ok match fs w !! p with Some _ => true | None => false end, w).

(** [open(p, 'w')]: creates the file or truncates it; raises on a
    directory ([IsADirectoryError]) and on a file that may not be written
    ([PermissionError]). *)
Definition open_w (p : str) : M unit := λ w,
  match fs w !! p with
  | Some Dir => (Raise IsADirectoryError, w)
  | Some (File _ false _) => (Raise PermissionError, w)
  | Some (File r true _) => (Ok tt, set_fs <[p := File r true []]> w)
  | None => (Ok tt, set_fs <[p := File true true []]> w)
  end.

Definition node_append (s : str) (n : node) : node :=
  match n with
  | Dir => Dir
  | File r wr data => File r wr (data ++ s)
  end.

(** [log_file.write(s)] on the handle opened at [p]. *)
Definition write (p : str) (s : str) : M unit := λ w,
  (Ok tt, set_fs (alter (node_append s) p) w).

(** [with open(p, 'r') as f: f.readlines()]. *)
Definition read_lines (p : str) : M (list str) := λ w,
  match fs w !! p with
  | Some (File true _ data) => (Ok (readlines data), w)
  | Some (File false _ _) => (Raise PermissionError, w)
  | Some Dir => (Raise IsADirectoryError, w)
  | None => (Raise FileNotFoundError, w)
  end.

(** [for x in l: body x]. *)
Fixpoint for_each {A} (l : list A) (body : A → M unit) : M unit :=
  match l with
  | [] => mret tt
  | x :: l' => body x;; for_each l' body
  end.

(** ** The script *)

Inductive mode := Sync | Async.

(** The parsed command line: [-u], [-w], [-o], [-m]. *)
Record args := Args {
  url : str;
  wordlist : str;
  output : str;
  fuzz_mode : mode
}.

(** A finished [fetch_url] task holds the dictionary
    [{'url': url, 'status': status}] or the exception it caught. *)
Inductive taskresult :=
  | RDict (url : str) (status : N)
  | RExn (e : exn).

(** [enumerate(l, i)]. *)
Fixpoint number_from {A} (i : nat) (l : list A) : list (nat * A) :=
  match l with
  | [] => []
  | x :: l' => (i, x) :: number_from (S i) l'
  end.

Section Script.

(** [urllib.parse.urlparse], reduced to the two fields the script reads:
    [(scheme, netloc)], or [None] when it raises [ValueError]. *)
Variable urlparse : str → option (str * str).

(** The response the transport gives to probe number [i] for [url]. *)
Variable transport : nat → str → response.

(** Which pending task the event loop sees resolve at each step. *)
Variable pick : nat → nat.

(** What the operator types at the overwrite prompt. *)
Variable reply : str.

Definition is_valid_url (url : str) : bool :=
  match urlparse url with
  | Some (scheme, netloc) =>
      (* all([result.scheme, result.netloc]) *)
      bool_decide (scheme ≠ []) && bool_decide (netloc ≠ [])
  | None => false
  end.

(** [base_url.replace('@', payload.strip())] *)
Definition probe_url (base_url payload : str) : str :=
  replace [AT] (strip payload) base_url.

(** [requests.get(url, timeout=10)] for probe number [i], returning
    [response.status_code]. *)
Definition requests_get (i : nat) (url : str) : M N :=
  emit (Sent i url);;
  emit (Resolved i url (transport i url));;
  match transport i url with
  | Status code => mret code
  | Failed e => raise e
  end.

(** The body of [for payload in payloads] in [sync_fuzz]; [i] numbers
    the probes. *)
Fixpoint sync_loop (base_url output_file : str) (i : nat)
    (payloads : list str) (success_count : nat) : M nat :=
  match payloads with
  | [] => mret success_count
  | payload :: payloads' =>
      let url := probe_url base_url payload in
      success_count' ←
        catch
          (status_code ← requests_get i url;
           if status_code =? 200 then
             let success_count := S success_count in
             print (MGreen url);;
             write output_file (url ++ [LF]);;
             mret success_count
           else mret success_count)
          (λ _, mret success_count);
      sync_loop base_url output_file (S i) payloads' success_count'
  end.

Definition sync_fuzz (base_url : str) (payloads : list str)
    (output_file : str) : M unit :=
  open_w output_file;;
  success_count ← sync_loop base_url output_file 0 payloads 0;
  print (MSummary success_count).

(** What the coroutine [fetch_url(session, url)] returns once the
    transport has answered task number [i]. *)
Definition fetch_url (i : nat) (url : str) : taskresult :=
  match transport i url with
  | Status code => RDict url code
  | Failed e => RExn e
  end.

(** The event loop while [gather] waits: at each step one of the pending
    tasks resolves and its future is filled. *)
Fixpoint resolve (fuel step : nat) (pending : list (nat * str))
    (futs : list (option taskresult)) : M (list (option taskresult)) :=
  match fuel with
  | O => mret futs
  | S fuel' =>
      match pending !! (pick step `mod` length pending)%nat with
      | None => mret futs
      | Some (i, url) =>
          emit (Resolved i url (transport i url));;
          resolve fuel' (S step)
            (delete (pick step `mod` length pending)%nat pending)
            (<[i := Some (fetch_url i url)]> futs)
      end
  end.

(** [await asyncio.gather] over [tasks], with [return_exceptions=True]:
    every task is started in order and runs up to its request; when all
    of them are done their results are read in the order of [tasks]
    (reading a future that is not done raises [InvalidStateError]). *)
Definition gather (tasks : list str) : M (list taskresult) :=
  let children := number_from 0 tasks in
  for_each children (λ '(i, url), emit (Sent i url));;
  futs ← resolve (length children) 0 children
           (replicate (length children) None);
  match mapM id futs with
  | Some results => mret results
  | None => raise InvalidStateError
  end.

(** [for i, result in enumerate(results)] in [async_fuzz]. *)
Fixpoint async_loop (output_file : str) (results : list taskresult)
    (success_count : nat) : M nat :=
  match results with
  | [] => mret success_count
  | result :: results' =>
      match result with
      | RDict url status =>
          if status =? 200 then
            let success_count := S success_count in
            print (MGreen url);;
            write output_file (url ++ [LF]);;
            async_loop output_file results' success_count
          else async_loop output_file results' success_count
      | RExn _ => async_loop output_file results' success_count
      end
  end.

Definition async_fuzz (base_url : str) (payloads : list str)
    (output_file : str) : M unit :=
  open_w output_file;;
  let tasks := map (probe_url base_url) payloads in
  results ← gather tasks;
  success_count ← async_loop output_file results 0;
  print (MSummary success_count).

(** [input(prompt)]: the prompt goes to the terminal, the operator's
    line comes back. *)
Definition input (prompt : msg) : M str :=
  print prompt;; mret reply.

(** [main], after [parser.parse_args()] has produced [a].  Each gate
    prints its message and leaves through [sys.exit(1)]; only the reading
    of the wordlist sits in a [try]. *)
Definition main (a : args) : M unit :=
  (if negb (is_valid_url (url a))
   then print MInvalidUrl;; sys_exit 1 else mret tt);;
  (if negb (contains AT (url a))
   then print MNoPlaceholder;; sys_exit 1 else mret tt);;
  is_file ← isfile (wordlist a);
  (if negb is_file
   then print (MWordlistNotFound (wordlist a));; sys_exit 1 else mret tt);;
  present ← exists_ (output a);
  (if present : bool then
     overwrite ← input (MPrompt (output a));
     if bool_decide (lower (strip overwrite) ≠ lit "y")
     then print MAborted;; sys_exit 1 else mret tt
   else mret tt);;
  payloads ←
    catch (read_lines (wordlist a))
          (λ e, print (MReadError e);; sys_exit 1);
  match fuzz_mode a with
  | Sync => sync_fuzz (url a) payloads (output a)
  | Async => async_fuzz (url a) payloads (output a)
  end.

End Script.

(** ** Observations of a run *)

(** A stand-in for [urlparse] in the examples: the scheme is what
    precedes the first colon, the host what follows [//] up to the next
    slash. *)
Fixpoint split_at (c : N) (s : str) : option (str * str) :=
  match s with
  | [] => None
  | x :: s' =>
      if x =? c then Some ([], s')
      else match split_at c s' with
           | Some (a, b) => Some (x :: a, b)
           | None => None
           end
  end.

Fixpoint up_to (c : N) (s : str) : str :=
  match s with
  | [] => []
  | x :: s' => if x =? c then [] else x :: up_to c s'
  end.

Definition simple_urlparse (u : str) : option (str * str) :=
  match split_at 58 u with
  | Some (scheme, 47 :: 47 :: rest) => Some (scheme, up_to 47 rest)
  | Some (scheme, _) => Some (scheme, [])
  | None => Some ([], [])
  end.

(** A response counts as a success when it carries status 200. *)
Definition is_hit (r : response) : bool :=
  match r with
  | Status code => code =? 200
  | Failed _ => false
  end.

Section Observations.

Variable transport : nat → str → response.

(** The URLs, among those of the probes numbered from [i], that the
    transport answers with 200. *)
Fixpoint hits (i : nat) (urls : list str) : list str :=
  match urls with
  | [] => []
  | u :: urls' =>
      if is_hit (transport i u) then u :: hits (S i) urls'
      else hits (S i) urls'
  end.

(** The network as a sequential run leaves it. *)
Fixpoint sync_events (i : nat) (urls : list str) : list event :=
  match urls with
  | [] => []
  | u :: urls' =>
      Sent i u :: Resolved i u (transport i u) :: sync_events (S i) urls'
  end.

(** The order in which the event loop sees the tasks resolve. *)
Fixpoint arrival_order (pick : nat → nat) (fuel step : nat)
    (pending : list (nat * str)) : list (nat * str) :=
  match fuel with
  | O => []
  | S fuel' =>
      match pending !! (pick step `mod` length pending)%nat with
      | None => []
      | Some task =>
          task :: arrival_order pick fuel' (S step)
                    (delete (pick step `mod` length pending)%nat pending)
      end
  end.

(** Filling the future of one resolved task. *)
Definition fill (task : nat * str) (futs : list (option taskresult)) :=
  <[task.1 := Some (fetch_url transport task.1 task.2)]> futs.

Definition sent_events (i : nat) (urls : list str) : list event :=
  (λ '(j, u), Sent j u) <$> number_from i urls.


(** The network as a concurrent run leaves it: every request is sent,
    then the responses arrive in the order of the event loop. *)
Definition async_events (pick : nat → nat) (urls : list str) : list event :=
  sent_events 0 urls ++
  ((λ '(j, u), Resolved j u (transport j u)) <$>
     arrival_order pick (length urls) 0 (number_from 0 urls)).

(** The results [gather] hands back: one per task, in task order. *)
Definition gathered (urls : list str) : list taskresult :=
  (λ '(j, u), fetch_url transport j u) <$> number_from 0 urls.

End Observations.

(** The text of a log holding [urls], one per line. *)
Definition log_text (urls : list str) : str :=
  flat_map (λ u, u ++ [LF]) urls.

(** The world after [open(output_file, 'w')] succeeded. *)
Definition truncated (output_file : str) (w : world) : world :=
  match fs w !! output_file with
  | Some (File r _ _) => set_fs <[output_file := File r true []]> w
  | _ => set_fs <[output_file := File true true []]> w
  end.

(** Whether [open(output_file, 'w')] fails, and how. *)
Definition open_error (output_file : str) (w : world) : option exn :=
  match fs w !! output_file with
  | Some Dir => Some IsADirectoryError
  | Some (File _ false _) => Some PermissionError
  | _ => None
  end.

(** The world a completed run leaves, given the URLs that succeeded and
    what the network saw. *)
Definition after_run (output_file : str) (succ : list str)
    (evs : list event) (w : world) : world :=
  add_stdout [MSummary (length succ)]
    (add_stdout (MGreen <$> succ)
       (add_net evs
          (set_fs (alter (node_append (log_text succ)) output_file)
             (truncated output_file w)))).

(** *** The gates of the driver *)

(** Whether the operator's reply counts as a refusal. *)
Definition declined (reply : str) : bool :=
  bool_decide (lower (strip reply) ≠ lit "y").

Definition is_regular (w : world) (p : str) : bool :=
  match fs w !! p with Some (File _ _ _) => true | _ => false end.

Definition is_present (w : world) (p : str) : bool :=
  match fs w !! p with Some _ => true | None => false end.

Definition is_readable (w : world) (p : str) : bool :=
  match fs w !! p with Some (File true _ _) => true | _ => false end.

(** The text of the file at [p]. *)
Definition text_of (w : world) (p : str) : str :=
  match fs w !! p with Some (File _ _ data) => data | _ => [] end.

(** The five input errors: the template is not a URL, it has no
    placeholder, the wordlist is not a file, the operator declines to
    overwrite an existing output, the wordlist cannot be read. *)
Definition input_error (urlparse : str → option (str * str)) (reply : str)
    (a : args) (w : world) : bool :=
  negb (is_valid_url urlparse (url a))
  || negb (contains AT (url a))
  || negb (is_regular w (wordlist a))
  || (is_present w (output a) && declined reply)
  || negb (is_readable w (wordlist a)).

(** What the driver prints before it either gives up or starts probing. *)
Definition preamble (urlparse : str → option (str * str)) (reply : str)
    (a : args) (w : world) : list msg :=
  if negb (is_valid_url urlparse (url a)) then [MInvalidUrl]
  else if negb (contains AT (url a)) then [MNoPlaceholder]
  else if negb (is_regular w (wordlist a))
  then [MWordlistNotFound (wordlist a)]
  else
    (if is_present w (output a) then [MPrompt (output a)] else []) ++
    (if is_present w (output a) && declined reply then [MAborted]
     else if is_readable w (wordlist a) then []
     else [MReadError PermissionError]).

(** The probes of a run of the driver: one URL per line of the wordlist. *)
Definition probes (a : args) (w : world) : list str :=
  probe_url (url a) <$> readlines (text_of w (wordlist a)).

(** What the network sees of a run, by mode. *)
Definition run_events (transport : nat → str → response) (pick : nat → nat)
    (m : mode) (urls : list str) : list event :=
  match m with
  | Sync => sync_events transport 0 urls
  | Async => async_events transport pick urls
  end.

(** The URLs of the requests sent, in the order they were sent. *)
Definition sent_urls (evs : list event) : list str :=
  omap (λ ev, match ev with Sent _ u => Some u | Resolved _ _ _ => None end)
    evs.

(** A transport that fails in no probe: every exception is replaced by
    the response [status]. *)
Definition mask (status : N) (transport : nat → str → response)
    : nat → str → response :=
  λ i u, match transport i u with
         | Status code => Status code
         | Failed _ => Status status
         end.



(** *** A small scenario

    The template [http://example.test/@] and a wordlist with the lines
    [admin], [login] and a blank one; the server knows [/admin] and [/],
    answers 404 for [/login] and times out elsewhere. *)

Definition demo_url : str := lit "http://example.test/@".
Definition demo_wordlist : str := lit "words.txt".
Definition demo_output : str := lit "hits.log".

Definition demo_words : str :=
  lit "admin" ++ [LF] ++ lit " login" ++ [CR; LF] ++ [LF].

Definition demo_transport : nat → str → response :=
  λ _ u,
    if bool_decide (u = lit "http://example.test/admin") then Status 200
    else if bool_decide (u = lit "http://example.test/") then Status 200
    else if bool_decide (u = lit "http://example.test/login") then Status 404
    else Failed Timeout.

(** A server that is down. *)
Definition dead_transport : nat → str → response :=
  λ _ _, Failed ConnectionError.

(** The event loop sees the last pending task resolve first. *)
Definition demo_pick : nat → nat := λ step, (2 - step)%nat.

Definition demo_args (m : mode) : args :=
  Args demo_url demo_wordlist demo_output m.

(** Only the wordlist exists. *)
Definition demo_world : world :=
  World {[ demo_wordlist := File true true demo_words ]} [] [].

(** The output path names a directory. *)
Definition dir_world : world :=
  World (<[ demo_output := Dir ]> (fs demo_world)) [] [].

(** The output path names a file that may not be written. *)
Definition readonly_world : world :=
  World (<[ demo_output := File true false (lit "old") ]> (fs demo_world))
    [] [].

(** No wordlist, and a log left by an earlier run. *)
Definition stale_world : world :=
  World {[ demo_output := File true true (lit "old") ]} [] [].

(** ** The script when the terminal, the operator and the disk fail

    The calls of the script that reach outside can all raise: [print]
    (an encoding error, a closed pipe), [input] (end of input), [open]
    (a missing parent directory), [write] and the flush that closes the
    file (a full device).  [Faults] embeds the script again with these
    failures; the two locals of the fuzzing functions, the count and the
    file object, are part of the state, so that an exception leaves them
    as the statements before it have set them. *)

Module Faults.

(** What the environment of one run does:
    - [stdin]: the line the operator types, [None] at end of input;
    - [tty term m]: the exception [print] raises for the line [m] on a
      terminal that has shown [term], if any;
    - [creatable p]: the exception [open(p, 'w')] raises for a path that
      names nothing, if any;
    - [write_error p buf chunk]: the exception [write(chunk)] raises on
      the handle of [p] that holds [buf], if any, with what the handle
      holds afterwards;
    - [close_error p buf]: the exception the closing flush raises, if
      any, with the part of [buf] that reached the file.

    A failure depends on what the terminal has shown, on the path and on
    what the handle holds; it does not depend on the network. *)
Record faults := MkFaults {
  stdin : option str;
  tty : list msg → msg → option exn;
  creatable : str → option exn;
  write_error : str → str → str → option (exn * str);
  close_error : str → str → option (exn * str)
}.

(** The world, and the locals [success_count] and [log_file] (the text
    written to the handle and not yet flushed). *)
Record state := State {
  outside : world;
  success_count : nat;
  log_file : str
}.

Definition F (A : Type) : Type := state → result A * state.

#[global] Instance F_ret : MRet F := λ A a s, (Ok a, s).
#[global] Instance F_bind : MBind F := λ A B k m s,
  match m s with
  | (Ok a, s') => k a s'
  | (Exit c, s') => (Exit c, s')
  | (Raise e, s') => (Raise e, s')
  end.

(** A statement that touches no local. *)
Definition lift {A} (m : M A) : F A := λ s,
  match m (outside s) with
  | (r, w) => (r, State w (success_count s) (log_file s))
  end.

(** [try: body / except Exception as e: handler e]: the handler starts
    from the state the exception left. *)
Definition try_except {A} (body : F A) (handler : exn → F A) : F A := λ s,
  match body s with
  | (Raise e, s') => handler e s'
  | r => r
  end.

(** [success_count = n] and [success_count += 1]. *)
Definition assign_count (n : nat) : F unit := λ s,
  (Ok tt, State (outside s) n (log_file s)).
Definition incr_count : F unit := λ s,
  (Ok tt, State (outside s) (S (success_count s)) (log_file s)).
Definition read_count : F nat := λ s, (Ok (success_count s), s).

(** The process: a call started with fresh locals, seen from outside. *)
Definition run {A} (m : F A) (w : world) : result A * world :=
  match m (State w 0 []) with
  | (r, s) => (r, outside s)
  end.

Section Script.

Variable urlparse : str → option (str * str).
Variable transport : nat → str → response.
Variable pick : nat → nat.
Variable f : faults.

Definition print (m : msg) : F unit := λ s,
  match tty f (stdout (outside s)) m with
  | Some e => (Raise e, s)
  | None =>
      (Ok tt, State (add_stdout [m] (outside s)) (success_count s) (log_file s))
  end.

(** [input(prompt)]: the prompt is shown, then a line is read. *)
Definition read_line : F str := λ s,
  match stdin f with
  | Some line => (Ok line, s)
  | None => (Raise EOFError, s)
  end.

Definition input (prompt : msg) : F str :=
  print prompt;; read_line.

(** [open(p, 'w')], giving an empty handle. *)
Definition open_w (p : str) : F unit := λ s,
  match fs (outside s) !! p with
  | Some Dir => (Raise IsADirectoryError, s)
  | Some (File _ false _) => (Raise PermissionError, s)
  | Some (File r true _) =>
      (Ok tt,
       State (set_fs <[p := File r true []]> (outside s)) (success_count s) [])
  | None =>
      match creatable f p with
      | Some e => (Raise e, s)
      | None =>
          (Ok tt,
           State (set_fs <[p := File true true []]> (outside s))
             (success_count s) [])
      end
  end.

(** [log_file.write(chunk)]: the text goes to the buffer of the handle. *)
Definition write (p chunk : str) : F unit := λ s,
  match write_error f p (log_file s) chunk with
  | Some (e, kept) => (Raise e, State (outside s) (success_count s) kept)
  | None => (Ok tt, State (outside s) (success_count s) (log_file s ++ chunk))
  end.

(** Closing the handle flushes its buffer to the file. *)
Definition close (p : str) : F unit := λ s,
  match close_error f p (log_file s) with
  | Some (e, kept) =>
      (Raise e,
       State (set_fs (alter (node_append kept) p) (outside s))
         (success_count s) [])
  | None =>
      (Ok tt,
       State (set_fs (alter (node_append (log_file s)) p) (outside s))
         (success_count s) [])
  end.

(** [with open(p, 'w') as log_file: body]: the file is closed however
    the body ends, and an exception of the closing replaces the ending
    of the body. *)
Definition then_close {A} (p : str) (body : F A) : F A := λ s,
  match body s with
  | (r, s') =>
      match close p s' with
      | (Ok _, s'') => (r, s'')
      | (Exit c, s'') => (Exit c, s'')
      | (Raise e, s'') => (Raise e, s'')
      end
  end.

Definition with_open {A} (p : str) (body : F A) : F A :=
  open_w p;; then_close p body.

(** The body of [for payload in payloads] in [sync_fuzz]: the whole of
    it sits in [try] with [except Exception: pass]. *)
Fixpoint sync_loop (base_url output_file : str) (i : nat)
    (payloads : list str) : F unit :=
  match payloads with
  | [] => mret tt
  | payload :: payloads' =>
      let url := probe_url base_url payload in
      try_except
        (status_code ← lift (requests_get transport i url);
         if status_code =? 200 then
           incr_count;;
           print (MGreen url);;
           write output_file (url ++ [LF])
         else mret tt)
        (λ _, mret tt);;
      sync_loop base_url output_file (S i) payloads'
  end.

Definition sync_fuzz (base_url : str) (payloads : list str)
    (output_file : str) : F unit :=
  assign_count 0;;
  with_open output_file (sync_loop base_url output_file 0 payloads);;
  success_count ← read_count;
  print (MSummary success_count).

(** [for i, result in enumerate(results)] in [async_fuzz]: no [try]
    here. *)
Fixpoint async_loop (output_file : str) (results : list taskresult)
    : F unit :=
  match results with
  | [] => mret tt
  | result :: results' =>
      match result with
      | RDict url status =>
          if status =? 200 then
            incr_count;;
            print (MGreen url);;
            write output_file (url ++ [LF])
          else mret tt
      | RExn _ => mret tt
      end;;
      async_loop output_file results'
  end.

Definition async_fuzz (base_url : str) (payloads : list str)
    (output_file : str) : F unit :=
  assign_count 0;;
  with_open output_file
    (let tasks := map (probe_url base_url) payloads in
     results ← lift (gather transport pick tasks);
     async_loop output_file results);;
  success_count ← read_count;
  print (MSummary success_count).

(** Lines 97 to 122 of [main]: the gates, and the reading of the
    wordlist. *)
Definition preflight (a : args) : F (list str) :=
  (if negb (is_valid_url urlparse (url a))
   then print MInvalidUrl;; lift (sys_exit 1) else mret tt);;
  (if negb (contains AT (url a))
   then print MNoPlaceholder;; lift (sys_exit 1) else mret tt);;
  is_file ← lift (isfile (wordlist a));
  (if negb is_file
   then print (MWordlistNotFound (wordlist a));; lift (sys_exit 1)
   else mret tt);;
  present ← lift (exists_ (output a));
  (if present : bool then
     overwrite ← input (MPrompt (output a));
     if bool_decide (lower (strip overwrite) ≠ lit "y")
     then print MAborted;; lift (sys_exit 1) else mret tt
   else mret tt);;
  try_except (lift (read_lines (wordlist a)))
    (λ e, print (MReadError e);; lift (sys_exit 1)).

(** [main]: the gates, then the mode chosen. *)
Definition main (a : args) : F unit :=
  payloads ← preflight a;
  match fuzz_mode a with
  | Sync => sync_fuzz (url a) payloads (output a)
  | Async => async_fuzz (url a) payloads (output a)
  end.

End Script.

(** *** Observations *)

(** The terminal and the log take every line. *)
Definition sound_sink (f : faults) : Prop :=
  (∀ term m, tty f term m = None)
  ∧ (∀ p buf chunk, write_error f p buf chunk = None)
  ∧ (∀ p buf, close_error f p buf = None).

(** Nothing fails, and the operator types [reply]. *)
Definition sound (reply : str) : faults :=
  MkFaults (Some reply) (λ _ _, None) (λ _, None) (λ _ _ _, None)
    (λ _ _, None).

(** Whether [open(output_file, 'w')] fails, and how. *)
Definition open_error (f : faults) (output_file : str) (w : world)
    : option exn :=
  match fs w !! output_file with
  | Some Dir => Some IsADirectoryError
  | Some (File _ false _) => Some PermissionError
  | Some (File _ true _) => None
  | None => creatable f output_file
  end.

(** Whether the operator, asked, refuses. *)
Definition refused (f : faults) : bool :=
  match stdin f with
  | Some reply => declined reply
  | None => false
  end.

(** The five input errors. *)
Definition input_error (urlparse : str → option (str * str)) (f : faults)
    (a : args) (w : world) : bool :=
  negb (is_valid_url urlparse (url a))
  || negb (contains AT (url a))
  || negb (is_regular w (wordlist a))
  || (is_present w (output a) && refused f)
  || negb (is_readable w (wordlist a)).

(** How the process ends when the terminal and the log work: at a gate,
    at the prompt when nobody answers, at the opening of the output, or
    after a completed run. *)
Definition ending (urlparse : str → option (str * str)) (f : faults)
    (a : args) (w : world) : result unit :=
  if negb (is_valid_url urlparse (url a))
     || negb (contains AT (url a))
     || negb (is_regular w (wordlist a))
  then Exit 1
  else if is_present w (output a) && bool_decide (stdin f = None)
  then Raise EOFError
  else if input_error urlparse f a w then Exit 1
  else match open_error f (output a) w with
       | Some e => Raise e
       | None => Ok tt
       end.

(** What the driver prints before that. *)
Definition preamble (urlparse : str → option (str * str)) (f : faults)
    (a : args) (w : world) : list msg :=
  if negb (is_valid_url urlparse (url a)) then [MInvalidUrl]
  else if negb (contains AT (url a)) then [MNoPlaceholder]
  else if negb (is_regular w (wordlist a))
  then [MWordlistNotFound (wordlist a)]
  else
    (if is_present w (output a) then [MPrompt (output a)] else []) ++
    (if is_present w (output a) && bool_decide (stdin f = None) then []
     else if is_present w (output a) && refused f then [MAborted]
     else if is_readable w (wordlist a) then []
     else [MReadError PermissionError]).

(** Two states that differ at most in what the network has seen. *)
Definition agree (s s' : state) : Prop :=
  fs (outside s) = fs (outside s')
  ∧ stdout (outside s) = stdout (outside s')
  ∧ success_count s = success_count s'
  ∧ log_file s = log_file s'.

(** Two statements that, from such states, end alike and in such
    states. *)
Definition alike {A} (m m' : F A) : Prop :=
  ∀ s s', agree s s' → (m s).1 = (m' s').1 ∧ agree (m s).2 (m' s').2.

(** The three statements that record a success, in both loops. *)
Definition record (f : faults) (output_file url : str) : F unit :=
  incr_count;;
  print f (MGreen url);;
  write f output_file (url ++ [LF]).

(** *** Scenarios *)

(** A terminal that encodes ASCII only. *)
Definition ascii_terminal (reply : str) : faults :=
  MkFaults (Some reply)
    (λ _ m, match m with
            | MGreen u =>
                if forallb (λ c, c <? 128) u then None
                else Some UnicodeEncodeError
            | _ => None
            end)
    (λ _, None) (λ _ _ _, None) (λ _ _, None).

(** A device without room: nothing of the buffer reaches the file. *)
Definition full_device (reply : str) : faults :=
  MkFaults (Some reply) (λ _ _, None) (λ _, None) (λ _ _ _, None)
    (λ _ _, Some (OSError, [])).

(** Nobody at the keyboard. *)
Definition no_operator : faults :=
  MkFaults None (λ _ _, None) (λ _, None) (λ _ _ _, None) (λ _ _, None).

(** The directory of the output does not exist. *)
Definition missing_parent (reply : str) : faults :=
  MkFaults (Some reply) (λ _ _, None) (λ _, Some FileNotFoundError)
    (λ _ _ _, None) (λ _ _, None).

(** Three payloads, the second one not ASCII, all answered with 200. *)
Definition accented_payloads : list str :=
  [lit "a" ++ [LF]; [233; LF]; lit "c" ++ [LF]].

Definition always_200 : nat → str → response := λ _ _, Status 200.

(** A world whose wordlist holds these payloads. *)
Definition accented_world : world :=
  World {[ demo_wordlist := File true true (concat accented_payloads) ]}
    [] [].

End Faults.

(** ** Worlds and the log file *)

Lemma world_eq (w1 w2 : world) :
  fs w1 = fs w2 → stdout w1 = stdout w2 → net w1 = net w2 → w1 = w2.
Proof. destruct w1, w2; simpl; congruence. Qed.

Lemma node_append_nil (n : node) : node_append [] n = n.
Proof. destruct n; simpl; by rewrite ?app_nil_r. Qed.

Lemma node_append_app (a b : str) (n : node) :
  node_append b (node_append a n) = node_append (a ++ b) n.
Proof. destruct n; simpl; by rewrite ?app_assoc. Qed.

Lemma alter_append_nil (p : str) (m : gmap (list N) node) :
  alter (node_append []) p m = m.
Proof. apply alter_id. intros; apply node_append_nil. Qed.

Lemma alter_append_app (a b p : str) (m : gmap (list N) node) :
  alter (node_append b) p (alter (node_append a) p m) =
  alter (node_append (a ++ b)) p m.
Proof.
  apply map_eq; intros q. destruct (decide (p = q)) as [->|Hne].
  - rewrite !lookup_alter_eq. destruct (m !! q); simpl; [|done].
    by rewrite node_append_app.
  - by rewrite !lookup_alter_ne.
Qed.

Lemma open_w_run (p : str) (w : world) :
  open_w p w =
  match open_error p w with
  | Some e => (Raise e, w)
  | None => (Ok tt, truncated p w)
  end.
Proof.
  unfold open_w, open_error, truncated.
  destruct (fs w !! p) as [[|r [|] d]|]; reflexivity.
Qed.

(** The log file right after the truncation is empty. *)
Lemma truncated_lookup (p : str) (w : world) :
  ∃ r, fs (truncated p w) !! p = Some (File r true []).
Proof.
  unfold truncated.
  destruct (fs w !! p) as [[|r wr d]|]; simpl; eexists; apply lookup_insert_eq.
Qed.

(** ** The sequential loop *)

Section SyncLoop.

Variable transport : nat → str → response.

Lemma sync_loop_run (base_url out : str) (payloads : list str) :
  ∀ (i n : nat) (w : world),
    let urls := probe_url base_url <$> payloads in
    sync_loop transport base_url out i payloads n w =
    (Ok (n + length (hits transport i urls))%nat,
     add_stdout (MGreen <$> hits transport i urls)
       (add_net (sync_events transport i urls)
          (set_fs (alter (node_append (log_text (hits transport i urls))) out)
             w))).
Proof.
  induction payloads as [|payload payloads IH]; intros i n w; simpl.
  - unfold mret, M_ret. f_equal; [f_equal; apply plus_n_O|].
    apply world_eq; simpl; by rewrite ?alter_append_nil, ?app_nil_r.
  - unfold mbind, M_bind, catch, requests_get, mbind, M_bind, emit, raise,
      mret, M_ret; simpl.
    destruct (transport i (probe_url base_url payload)) as [code|e] eqn:Hr;
      simpl.
    + destruct (code =? 200) eqn:Hc; simpl; rewrite IH; simpl.
      * f_equal; [f_equal; symmetry; apply Nat.add_succ_r|].
        apply world_eq; simpl.
        -- by rewrite alter_append_app.
        -- rewrite <- app_assoc; reflexivity.
        -- rewrite <- !app_assoc; reflexivity.
      * f_equal. apply world_eq; simpl; [reflexivity|reflexivity|].
        rewrite <- !app_assoc; reflexivity.
    + rewrite IH; simpl. f_equal.
      apply world_eq; simpl; [reflexivity|reflexivity|].
      rewrite <- !app_assoc; reflexivity.
Qed.

Lemma sync_fuzz_run (base_url : str) (payloads : list str) (out : str)
    (w : world) :
  let urls := probe_url base_url <$> payloads in
  sync_fuzz transport base_url payloads out w =
  match open_error out w with
  | Some e => (Raise e, w)
  | None =>
      (Ok tt,
       after_run out (hits transport 0 urls) (sync_events transport 0 urls) w)
  end.
Proof.
  intros urls. unfold sync_fuzz, mbind, M_bind.
  rewrite open_w_run. destruct (open_error out w) as [e|]; [reflexivity|].
  rewrite sync_loop_run. reflexivity.
Qed.

End SyncLoop.

(** ** The concurrent run *)

Lemma number_from_length {A} (l : list A) (i : nat) :
  length (number_from i l) = length l.
Proof. revert i; induction l; intros; simpl; auto. Qed.

Lemma number_from_fst {A} (l : list A) (i : nat) :
  (number_from i l).*1 = seq i (length l).
Proof. revert i; induction l; intros; simpl; f_equal; auto. Qed.

Lemma number_from_lookup {A} (l : list A) (i j : nat) :
  number_from i l !! j = (λ x, ((i + j)%nat, x)) <$> l !! j.
Proof.
  revert i j; induction l as [|x l IH]; intros i [|j]; simpl; try done.
  - by rewrite Nat.add_0_r.
  - rewrite IH. by rewrite Nat.add_succ_r.
Qed.

Lemma number_from_NoDup {A} (l : list A) (i : nat) :
  NoDup (number_from i l).*1.
Proof. rewrite number_from_fst. apply NoDup_seq. Qed.

Section Gather.

Variable transport : nat → str → response.
Variable pick : nat → nat.

Lemma fill_length task futs : length (fill transport task futs) = length futs.
Proof. apply length_insert. Qed.

Lemma foldr_fill_length pending futs :
  length (foldr (fill transport) futs pending) = length futs.
Proof. induction pending; simpl; by rewrite ?fill_length. Qed.

Lemma fill_foldr_comm task pending futs :
  task.1 ∉ pending.*1 →
  foldr (fill transport) (fill transport task futs) pending =
  fill transport task (foldr (fill transport) futs pending).
Proof.
  induction pending as [|t pending IH]; simpl; intros Hnot; [done|].
  apply not_elem_of_cons in Hnot as [Hne Hnot].
  rewrite IH by done. unfold fill. by apply list_insert_insert_ne.
Qed.

Lemma foldr_fill_delete pending :
  ∀ k task futs,
    NoDup pending.*1 →
    pending !! k = Some task →
    foldr (fill transport) (fill transport task futs) (delete k pending) =
    foldr (fill transport) futs pending.
Proof.
  induction pending as [|t pending IH]; intros [|k] task futs Hnd Hk;
    simpl in *; try done.
  - injection Hk as ->. apply NoDup_cons in Hnd as [Hnot _].
    by apply fill_foldr_comm.
  - apply NoDup_cons in Hnd as [_ Hnd]. f_equal. by apply IH.
Qed.

(** The event loop fills the future of every pending task, whatever the
    order in which it sees them resolve. *)
Lemma resolve_run (fuel : nat) :
  ∀ step pending futs w,
    length pending = fuel →
    NoDup pending.*1 →
    resolve transport pick fuel step pending futs w =
    (Ok (foldr (fill transport) futs pending),
     add_net ((λ '(j, u), Resolved j u (transport j u)) <$>
                arrival_order pick fuel step pending) w).
Proof.
  induction fuel as [|fuel IH]; intros step pending futs w Hlen Hnd; simpl.
  - destruct pending; [|done]. unfold mret, M_ret; simpl. f_equal.
    apply world_eq; simpl; by rewrite ?app_nil_r.
  - destruct (lookup_lt_is_Some_2 pending
                (pick step `mod` length pending)%nat) as [[i u] Hk].
    { apply Nat.mod_upper_bound. rewrite Hlen. done. }
    rewrite Hk. unfold mbind, M_bind, emit; simpl.
    rewrite IH.
    + f_equal.
      * f_equal. by apply (foldr_fill_delete pending _ (i, u)).
      * apply world_eq; simpl; [done|done|].
        rewrite <- app_assoc; reflexivity.
    + rewrite length_delete by eauto. rewrite Hlen. lia.
    + rewrite list_fmap_delete.
      eapply sublist_NoDup; [exact Hnd|apply sublist_delete].
Qed.


Lemma lookup_foldr_fill pending :
  ∀ futs j u,
    NoDup pending.*1 →
    (j, u) ∈ pending →
    (j < length futs)%nat →
    foldr (fill transport) futs pending !! j =
    Some (Some (fetch_url transport j u)).
Proof.
  induction pending as [|[i v] pending IH]; intros futs j u Hnd Hin Hlt;
    simpl in *.
  - by apply elem_of_nil in Hin.
  - apply NoDup_cons in Hnd as [Hnot Hnd]. unfold fill at 1; simpl.
    apply elem_of_cons in Hin as [Heq|Hin].
    + injection Heq as -> ->.
      apply list_lookup_insert_eq. by rewrite foldr_fill_length.
    + destruct (decide (i = j)) as [->|Hne].
      * exfalso. apply Hnot. apply list_elem_of_fmap. by exists (j, u).
      * rewrite list_lookup_insert_ne by done. by apply IH.
Qed.

(** Once every task has resolved, the futures hold the results in task
    order. *)
Lemma futures_filled (urls : list str) :
  foldr (fill transport) (replicate (length urls) None) (number_from 0 urls) =
  Some <$> gathered transport urls.
Proof.
  apply list_eq; intros j. unfold gathered.
  rewrite !list_lookup_fmap, number_from_lookup.
  destruct (urls !! j) as [u|] eqn:Hj; simpl.
  - apply lookup_foldr_fill.
    + apply number_from_NoDup.
    + apply list_elem_of_lookup. exists j.
      by rewrite number_from_lookup, Hj.
    + rewrite length_replicate. by eapply lookup_lt_Some.
  - apply lookup_ge_None. rewrite foldr_fill_length, length_replicate.
    by apply lookup_ge_None.
Qed.

Lemma send_all_run (urls : list str) :
  ∀ i w,
    for_each (number_from i urls) (λ '(j, u), emit (Sent j u)) w =
    (Ok tt, add_net (sent_events i urls) w).
Proof.
  induction urls as [|u urls IH]; intros i w; simpl.
  - unfold mret, M_ret. f_equal. apply world_eq; simpl; by rewrite ?app_nil_r.
  - unfold mbind, M_bind, emit; simpl. rewrite IH. f_equal.
    apply world_eq; simpl; [done|done|].
    rewrite <- app_assoc; reflexivity.
Qed.

(** [gather] returns one result per task, in task order, whatever the
    arrival order. *)
Lemma gather_run (urls : list str) (w : world) :
  gather transport pick urls w =
  (Ok (gathered transport urls),
   add_net (async_events transport pick urls) w).
Proof.
  unfold gather, mbind, M_bind. rewrite send_all_run.
  rewrite resolve_run by (done || apply number_from_NoDup).
  rewrite !number_from_length, futures_filled.
  rewrite mapM_fmap_Some by done. unfold mret, M_ret. f_equal.
  apply world_eq; simpl; [done|done|].
  unfold async_events. by rewrite <- app_assoc.
Qed.

Lemma async_loop_run (out : str) (urls : list str) :
  ∀ (i n : nat) (w : world),
    async_loop out
      ((λ '(j, u), fetch_url transport j u) <$> number_from i urls) n w =
    (Ok (n + length (hits transport i urls))%nat,
     add_stdout (MGreen <$> hits transport i urls)
       (set_fs (alter (node_append (log_text (hits transport i urls))) out)
          w)).
Proof.
  induction urls as [|u urls IH]; intros i n w; simpl.
  - unfold mret, M_ret. f_equal; [f_equal; apply plus_n_O|].
    apply world_eq; simpl; by rewrite ?alter_append_nil, ?app_nil_r.
  - unfold fetch_url at 1.
    destruct (transport i u) as [code|e]; simpl.
    + destruct (code =? 200); simpl.
      * unfold mbind, M_bind, print, write; simpl. rewrite IH.
        f_equal; [f_equal; symmetry; apply Nat.add_succ_r|].
        apply world_eq; simpl.
        -- by rewrite alter_append_app.
        -- rewrite <- app_assoc; reflexivity.
        -- reflexivity.
      * apply IH.
    + apply IH.
Qed.

Lemma async_fuzz_run (base_url : str) (payloads : list str) (out : str)
    (w : world) :
  let urls := probe_url base_url <$> payloads in
  async_fuzz transport pick base_url payloads out w =
  match open_error out w with
  | Some e => (Raise e, w)
  | None =>
      (Ok tt,
       after_run out (hits transport 0 urls)
         (async_events transport pick urls) w)
  end.
Proof.
  intros urls. unfold async_fuzz, mbind, M_bind.
  rewrite open_w_run. destruct (open_error out w) as [e|]; [reflexivity|].
  change (map (probe_url base_url) payloads) with urls.
  rewrite gather_run. unfold gathered. rewrite async_loop_run.
  reflexivity.
Qed.

End Gather.

(** ** The driver *)

Section Driver.

Variable urlparse : str → option (str * str).
Variable transport : nat → str → response.
Variable pick : nat → nat.
Variable reply : str.

Lemma fuzz_run (m : mode) (base_url : str) (payloads : list str) (out : str)
    (w : world) :
  let urls := probe_url base_url <$> payloads in
  match m with
  | Sync => sync_fuzz transport base_url payloads out
  | Async => async_fuzz transport pick base_url payloads out
  end w =
  match open_error out w with
  | Some e => (Raise e, w)
  | None =>
      (Ok tt,
       after_run out (hits transport 0 urls)
         (run_events transport pick m urls) w)
  end.
Proof.
  destruct m; simpl; [apply sync_fuzz_run|apply async_fuzz_run].
Qed.

(** The driver, gate by gate. *)
Lemma main_run (a : args) (w : world) :
  let w0 := add_stdout (preamble urlparse reply a w) w in
  main urlparse transport pick reply a w =
  if input_error urlparse reply a w then (Exit 1, w0)
  else match open_error (output a) w with
       | Some e => (Raise e, w0)
       | None =>
           (Ok tt,
            after_run (output a) (hits transport 0 (probes a w))
              (run_events transport pick (fuzz_mode a) (probes a w)) w0)
       end.
Proof.
  unfold main, input_error, preamble, probes, text_of, is_regular,
    is_present, is_readable.
  unfold mbind at 1, M_bind at 1.
  destruct (is_valid_url urlparse (url a)); simpl; [|reflexivity].
  unfold mbind at 1, M_bind at 1, mret at 1, M_ret at 1.
  unfold mbind at 1, M_bind at 1.
  destruct (contains AT (url a)); simpl; [|reflexivity].
  unfold mbind at 1, M_bind at 1, mret at 1, M_ret at 1, isfile at 1.
  unfold mbind at 1, M_bind at 1.
  destruct (fs w !! wordlist a) as [[|r wr data]|] eqn:Hw; simpl;
    try reflexivity.
  unfold mbind at 1, M_bind at 1, mret at 1, M_ret at 1, exists_ at 1.
  unfold mbind at 1, M_bind at 1.
  destruct (fs w !! output a) as [n|] eqn:Ho; simpl.
  - unfold input, mbind at 1, M_bind at 1, mbind at 1, M_bind at 1,
      print at 1, mret at 1, M_ret at 1, declined.
    destruct (bool_decide (lower (strip reply) ≠ lit "y")); simpl.
    + unfold mbind, M_bind, print, sys_exit. f_equal.
      apply world_eq; simpl; [done|by rewrite <- app_assoc|done].
    + unfold mbind at 1, M_bind at 1, catch, read_lines. simpl. rewrite Hw.
      destruct r; simpl.
      * rewrite fuzz_run. unfold open_error; simpl. rewrite Ho.
        destruct n as [|r' [|] d']; reflexivity.
      * unfold mbind, M_bind, print, sys_exit. f_equal.
        apply world_eq; simpl; [done|by rewrite <- app_assoc|done].
  - unfold mbind at 1, M_bind at 1, catch, read_lines. rewrite Hw.
    assert (add_stdout [] w = w) as Hid.
    { apply world_eq; simpl; by rewrite ?app_nil_r. }
    destruct r; simpl.
    + rewrite fuzz_run, Hid. reflexivity.
    + unfold mbind, M_bind, print, sys_exit. reflexivity.
Qed.

End Driver.

(** ** Strings *)

Lemma replace_single (c : N) (new s : str) :
  replace [c] new s = flat_map (λ x, if x =? c then new else [x]) s.
Proof.
  unfold replace. induction s as [|x s IH]; simpl; [done|].
  rewrite N.eqb_sym, andb_true_r. destruct (x =? c); by rewrite IH.
Qed.

(** Replacing every occurrence of [c] by a text without [c] leaves no
    occurrence of [c]. *)
Lemma replace_single_removes (c : N) (new s : str) :
  c ∉ new → c ∉ replace [c] new s.
Proof.
  intros Hnew. rewrite replace_single.
  induction s as [|x s IH]; simpl; [apply not_elem_of_nil|].
  rewrite elem_of_app. intros [Hin|Hin]; [|done].
  destruct (x =? c) eqn:Hx; [done|].
  apply list_elem_of_singleton in Hin as ->.
  by rewrite N.eqb_refl in Hx.
Qed.


Lemma lstrip_split (s : str) :
  ∃ l, s = l ++ lstrip s ∧ forallb isspace l = true.
Proof.
  induction s as [|c s (l & Hs & Hl)]; simpl.
  - by exists [].
  - destruct (isspace c) eqn:Hc.
    + exists (c :: l); simpl. rewrite Hc, Hl. split; [by f_equal|done].
    + by exists [].
Qed.


Lemma lstrip_blank (s : str) : forallb isspace s = true → lstrip s = [].
Proof.
  induction s as [|c s IH]; simpl; [done|].
  destruct (isspace c); simpl; [done|discriminate].
Qed.

Lemma forallb_reverse {A} (f : A → bool) (l : list A) :
  forallb f (reverse l) = forallb f l.
Proof.
  induction l as [|x l IH]; simpl; [done|].
  rewrite reverse_cons, forallb_app, IH; simpl.
  rewrite andb_true_r. apply andb_comm.
Qed.

Lemma rstrip_split (s : str) :
  ∃ r, s = rstrip s ++ r ∧ forallb isspace r = true.
Proof.
  unfold rstrip. destruct (lstrip_split (reverse s)) as (l & Hs & Hl).
  exists (reverse l). split; [|by rewrite forallb_reverse].
  rewrite <- reverse_app, <- Hs. by rewrite reverse_involutive.
Qed.



(** [strip] removes a run of white space at each end, and nothing else. *)
Lemma strip_split (s : str) :
  ∃ l r, s = l ++ strip s ++ r
         ∧ forallb isspace l = true ∧ forallb isspace r = true.
Proof.
  unfold strip. destruct (lstrip_split s) as (l & Hs & Hl).
  destruct (rstrip_split (lstrip s)) as (r & Hs' & Hr).
  exists l, r. split; [|done]. by rewrite <- Hs', <- Hs.
Qed.




(** ** Requests seen by the network *)

Lemma sent_urls_sync transport (urls : list str) :
  ∀ i, sent_urls (sync_events transport i urls) = urls.
Proof.
  induction urls as [|u urls IH]; intros i; simpl; [done|].
  unfold sent_urls in *; simpl. by rewrite IH.
Qed.

Lemma sent_urls_sent (urls : list str) :
  ∀ i, sent_urls (sent_events i urls) = urls.
Proof.
  induction urls as [|u urls IH]; intros i; simpl; [done|].
  unfold sent_urls, sent_events in *; simpl. by rewrite IH.
Qed.

Lemma sent_urls_resolved transport (tasks : list (nat * str)) :
  sent_urls ((λ '(j, u), Resolved j u (transport j u)) <$> tasks) = [].
Proof.
  induction tasks as [|[j u] tasks IH]; simpl; [done|].
  unfold sent_urls in *; simpl. exact IH.
Qed.

Lemma sent_urls_run transport pick (m : mode) (urls : list str) :
  sent_urls (run_events transport pick m urls) = urls.
Proof.
  destruct m; simpl; [apply sent_urls_sync|].
  unfold async_events, sent_urls. rewrite omap_app.
  fold (sent_urls (sent_events 0 urls)). rewrite sent_urls_sent.
  fold (sent_urls ((λ '(j, u), Resolved j u (transport j u)) <$>
     arrival_order pick (length urls) 0 (number_from 0 urls))).
  by rewrite sent_urls_resolved, app_nil_r.
Qed.

(** ** The scenario, run *)

Example demo_sync_log :
  text_of (main simple_urlparse demo_transport demo_pick (lit "y")
             (demo_args Sync) demo_world).2 demo_output =
  lit "http://example.test/admin" ++ [LF] ++ lit "http://example.test/" ++ [LF].
Proof. vm_compute. reflexivity. Qed.

Example demo_sync_terminal :
  stdout (main simple_urlparse demo_transport demo_pick (lit "y")
            (demo_args Sync) demo_world).2 =
  [MGreen (lit "http://example.test/admin");
   MGreen (lit "http://example.test/"); MSummary 2].
Proof. vm_compute. reflexivity. Qed.

Example demo_async_network :
  net (main simple_urlparse demo_transport demo_pick (lit "y")
         (demo_args Async) demo_world).2 =
  [Sent 0 (lit "http://example.test/admin");
   Sent 1 (lit "http://example.test/login");
   Sent 2 (lit "http://example.test/");
   Resolved 2 (lit "http://example.test/") (Status 200);
   Resolved 1 (lit "http://example.test/login") (Status 404);
   Resolved 0 (lit "http://example.test/admin") (Status 200)].
Proof. vm_compute. reflexivity. Qed.

Example demo_async_terminal :
  stdout (main simple_urlparse demo_transport demo_pick (lit "y")
            (demo_args Async) demo_world).2 =
  [MGreen (lit "http://example.test/admin");
   MGreen (lit "http://example.test/"); MSummary 2].
Proof. vm_compute. reflexivity. Qed.

Example demo_directory_output :
  (main simple_urlparse demo_transport demo_pick (lit "y")
     (demo_args Sync) dir_world).1 = Raise IsADirectoryError.
Proof. vm_compute. reflexivity. Qed.

(** ** Runs, observed *)


Lemma after_run_net out succ evs w :
  net (after_run out succ evs w) = net w ++ evs.
Proof. unfold after_run, truncated. by destruct (fs w !! out) as [[]|]. Qed.

Lemma after_run_stdout out succ evs w :
  stdout (after_run out succ evs w) =
  stdout w ++ (MGreen <$> succ) ++ [MSummary (length succ)].
Proof.
  unfold after_run, truncated.
  destruct (fs w !! out) as [[]|]; simpl; by rewrite <- app_assoc.
Qed.

Lemma after_run_log out succ evs w :
  text_of (after_run out succ evs w) out = log_text succ.
Proof.
  unfold text_of, after_run; simpl. rewrite lookup_alter_eq.
  destruct (truncated_lookup out w) as [r ->]. reflexivity.
Qed.


Lemma count_app (c : N) (s t : str) :
  count c (s ++ t) = (count c s + count c t)%nat.
Proof. unfold count. by rewrite filter_app, length_app. Qed.

Lemma count_absent (c : N) (s : str) : c ∉ s → count c s = 0%nat.
Proof.
  unfold count. induction s as [|x s IH]; intros Hc; [done|].
  apply not_elem_of_cons in Hc as [Hne Hc].
  rewrite filter_cons_False by done. by apply IH.
Qed.

(** A log of URLs that hold no line terminator has as many lines as
    URLs. *)
Lemma log_text_lines (urls : list str) :
  Forall (λ u, LF ∉ u) urls → count LF (log_text urls) = length urls.
Proof.
  induction 1 as [|u urls Hu _ IH]; simpl; [done|].
  rewrite !count_app, IH, (count_absent LF u) by done. reflexivity.
Qed.

Lemma sent_urls_app (evs evs' : list event) :
  sent_urls (evs ++ evs') = sent_urls evs ++ sent_urls evs'.
Proof. apply omap_app. Qed.





(** ** Properties of the specification *)


(** C5: when the template is a valid URL with exactly one ['@'] and the
    stripped payload has no ['@'], the URL of the probe has no ['@']
    left. *)
Theorem substitution_leaves_no_placeholder
    (urlparse : str → option (str * str)) (template payload : str) :
  is_valid_url urlparse template = true →
  count AT template = 1%nat →
  AT ∉ strip payload →
  AT ∉ probe_url template payload.
Proof.
  intros _ _ Hp. unfold probe_url. by apply replace_single_removes.
Qed.

Lemma substitution_leaves_no_placeholder_witness :
  AT ∉ probe_url demo_url (lit " admin" ++ [LF]).
Proof.
  apply (substitution_leaves_no_placeholder simple_urlparse).
  - vm_compute. reflexivity.
  - vm_compute. reflexivity.
  - refine (bool_decide_unpack _ _). vm_compute. exact I.
Defined.







(** ** Further properties of the code *)


Lemma truncated_frame (out p : str) (w : world) :
  p ≠ out → fs (truncated out w) !! p = fs w !! p.
Proof.
  intros Hne. unfold truncated.
  destruct (fs w !! out) as [[|r wr d]|]; simpl; by rewrite lookup_insert_ne.
Qed.








Lemma last_app_snoc {A} (l k : list A) (x : A) :
  last (l ++ k ++ [x]) = Some x.
Proof. by rewrite app_assoc, last_snoc. Qed.



Lemma contains_false (c : N) (s : str) : contains c s = false → c ∉ s.
Proof.
  unfold contains. induction s as [|x s IH]; simpl; [intros _; apply not_elem_of_nil|].
  intros H. apply orb_false_iff in H as [Hx Hs].
  apply not_elem_of_cons. split; [|by apply IH].
  by apply N.eqb_neq in Hx.
Qed.

Lemma replace_single_absent (c : N) (new s : str) :
  c ∉ s → replace [c] new s = s.
Proof.
  rewrite replace_single. induction s as [|x s IH]; simpl; [done|].
  intros H. apply not_elem_of_cons in H as [Hne Hs].
  rewrite IH by done. destruct (N.eqb_spec x c); [congruence|done].
Qed.

(** X7: without a placeholder in the template, the substitution changes
    nothing: every payload gives the template itself as its URL, which is
    what the second gate of the driver keeps from happening. *)
Theorem template_without_placeholder_is_its_own_probe
    (base_url payload : str) :
  contains AT base_url = false →
  probe_url base_url payload = base_url.
Proof.
  intros H. unfold probe_url. by apply replace_single_absent, contains_false.
Qed.

Lemma template_without_placeholder_is_its_own_probe_witness :
  probe_url (lit "http://example.test/x") (lit "admin") =
  lit "http://example.test/x".
Proof.
  apply template_without_placeholder_is_its_own_probe.
  vm_compute. reflexivity.
Defined.

(** X8: the substitution replaces every ['@'] of the template, not the
    first one only: the URL of a probe is longer than the template by the
    length of the stripped payload, less one, for each ['@']. *)
Theorem substitution_replaces_every_placeholder (base_url payload : str) :
  (length (probe_url base_url payload) + count AT base_url =
   length base_url + count AT base_url * length (strip payload))%nat.
Proof.
  unfold probe_url, count. rewrite replace_single.
  induction base_url as [|x s IH]; simpl; [done|].
  destruct (N.eqb_spec x AT) as [->|Hne].
  - rewrite filter_cons_True by done. rewrite length_app; simpl. lia.
  - rewrite filter_cons_False by naive_solver. simpl. lia.
Qed.

Lemma hits_sublist transport (urls : list str) :
  ∀ i, hits transport i urls `sublist_of` urls.
Proof.
  induction urls as [|u urls IH]; intros i; simpl; [done|].
  destruct (is_hit (transport i u)); by constructor.
Qed.


Lemma hits_all transport (urls : list str) :
  (∀ i u, transport i u = Status 200) → ∀ i, hits transport i urls = urls.
Proof.
  intros Hall. induction urls as [|u urls IH]; intros i; simpl; [done|].
  by rewrite Hall, IH.
Qed.



Lemma lstrip_pad (l s : str) :
  forallb isspace l = true → lstrip (l ++ s) = lstrip s.
Proof.
  induction l as [|c l IH]; simpl; [done|].
  destruct (isspace c); simpl; [done|discriminate].
Qed.

Lemma rstrip_pad (s r : str) :
  forallb isspace r = true → rstrip (s ++ r) = rstrip s.
Proof.
  intros Hr. unfold rstrip. rewrite reverse_app, lstrip_pad; [done|].
  by rewrite forallb_reverse.
Qed.

Lemma lstrip_app (s r : str) :
  lstrip (s ++ r) =
  match lstrip s with [] => lstrip r | _ :: _ => lstrip s ++ r end.
Proof.
  induction s as [|c s IH]; simpl; [by destruct (lstrip r)|].
  destruct (isspace c); [exact IH|done].
Qed.

Lemma strip_pad (l s r : str) :
  forallb isspace l = true → forallb isspace r = true →
  strip (l ++ s ++ r) = strip s.
Proof.
  intros Hl Hr. unfold strip. rewrite lstrip_pad, lstrip_app by done.
  destruct (lstrip s) as [|c t] eqn:Hs.
  - by rewrite lstrip_blank.
  - by rewrite rstrip_pad.
Qed.

(** X12: white space around a payload never reaches the URL: a line of
    the wordlist padded with blanks, tabs or line ends on either side is
    probed exactly like the bare payload. *)
Theorem padding_does_not_change_the_probe (base_url l payload r : str) :
  forallb isspace l = true →
  forallb isspace r = true →
  probe_url base_url (l ++ payload ++ r) = probe_url base_url payload.
Proof. intros Hl Hr. unfold probe_url. by rewrite strip_pad. Qed.

Lemma padding_does_not_change_the_probe_witness :
  probe_url demo_url (lit "  " ++ lit "admin" ++ [9; CR; LF]) =
  probe_url demo_url (lit "admin").
Proof.
  apply padding_does_not_change_the_probe; vm_compute; reflexivity.
Defined.

Lemma split_lines_concat (s : str) :
  ∀ cur, concat (split_lines cur s) = cur ++ s.
Proof.
  induction s as [|c s IH]; intros cur; simpl.
  - destruct cur; simpl; by rewrite ?app_nil_r.
  - destruct (c =? LF) eqn:Hc; simpl.
    + apply N.eqb_eq in Hc as ->. rewrite IH. by rewrite <- app_assoc.
    + rewrite IH. by rewrite <- app_assoc.
Qed.

Lemma split_lines_nonempty (s : str) :
  ∀ cur, Forall (λ line, line ≠ []) (split_lines cur s).
Proof.
  induction s as [|c s IH]; intros cur; simpl.
  - destruct cur; by repeat constructor.
  - destruct (c =? LF); [|apply IH].
    constructor; [|apply IH]. by destruct cur.
Qed.

(** Every line is a text without terminator, followed by one or, for the
    last line only, by nothing. *)
Lemma split_lines_shape (s : str) :
  ∀ cur,
    LF ∉ cur →
    Forall (λ line,
              ∃ body, (LF ∉ body) ∧ (line = body ++ [LF] ∨ line = body))
      (split_lines cur s).
Proof.
  induction s as [|c s IH]; intros cur Hcur; simpl.
  - destruct cur; [constructor|]. repeat constructor. by eexists; eauto.
  - destruct (N.eqb_spec c LF) as [->|Hne].
    + constructor; [by eexists; eauto|]. apply IH, not_elem_of_nil.
    + apply IH. rewrite elem_of_app, list_elem_of_singleton.
      intros [?|?]; [done|congruence].
Qed.

Lemma universal_newlines_id (s : str) :
  CR ∉ s → universal_newlines s = s.
Proof.
  induction s as [|c s IH]; simpl; [done|]. intros H.
  apply not_elem_of_cons in H as [Hne Hs].
  destruct (N.eqb_spec c CR); [congruence|]. by rewrite IH.
Qed.

(** X13: reading the wordlist loses nothing: the lines handed to the
    engine are never empty and, put end to end, give back the text of
    the file with CR LF and CR read as LF, that is the text itself when it
    holds no CR. *)
Theorem wordlist_lines_give_back_the_text (data : str) :
  concat (readlines data) = universal_newlines data
  ∧ Forall (λ line, line ≠ []) (readlines data)
  ∧ (CR ∉ data → concat (readlines data) = data).
Proof.
  unfold readlines. rewrite split_lines_concat. split; [done|].
  split; [apply split_lines_nonempty|].
  intros H. by rewrite universal_newlines_id.
Qed.

Lemma strip_subset (s : str) (c : N) : c ∈ strip s → c ∈ s.
Proof.
  destruct (strip_split s) as (l & r & Hs & _). intros Hc.
  rewrite Hs, !elem_of_app. auto.
Qed.

Lemma readlines_strip_no_LF (data line : str) :
  line ∈ readlines data → LF ∉ strip line.
Proof.
  intros Hin.
  pose proof (split_lines_shape (universal_newlines data) []
                (not_elem_of_nil _)) as Hshape.
  rewrite Forall_forall in Hshape.
  destruct (Hshape line Hin) as (body & Hbody & [-> | ->]).
  - rewrite <- (app_nil_l (body ++ [LF])), strip_pad by done.
    intros H. by apply Hbody, strip_subset.
  - intros H. by apply Hbody, strip_subset.
Qed.

Lemma replace_single_keeps_out (c d : N) (new s : str) :
  d ∉ new → d ∉ s → d ∉ replace [c] new s.
Proof.
  intros Hnew. rewrite replace_single.
  induction s as [|x s IH]; simpl; [done|]. intros Hs.
  apply not_elem_of_cons in Hs as [Hne Hs].
  rewrite elem_of_app. intros [Hin|Hin]; [|by apply IH].
  destruct (x =? c); [done|].
  apply list_elem_of_singleton in Hin. congruence.
Qed.






(** X16: an empty wordlist is not an error: the driver sends no request,
    reports 0, and still truncates the output, so that the log of an
    earlier run is lost. *)
Theorem empty_wordlist_empties_the_log
    (urlparse : str → option (str * str)) (transport : nat → str → response)
    (pick : nat → nat) (reply : str) (a : args) (w : world) :
  text_of w (wordlist a) = [] →
  (main urlparse transport pick reply a w).1 = Ok tt →
  net (main urlparse transport pick reply a w).2 = net w
  ∧ text_of (main urlparse transport pick reply a w).2 (output a) = []
  ∧ last (stdout (main urlparse transport pick reply a w).2) =
    Some (MSummary 0).
Proof.
  intros Hempty. rewrite main_run.
  destruct (input_error urlparse reply a w); [done|].
  destruct (open_error (output a) w); [done|]. cbn [fst snd]. intros _.
  rewrite after_run_net, after_run_log, after_run_stdout, last_app_snoc.
  unfold probes. rewrite Hempty.
  destruct (fuzz_mode a); simpl; by rewrite app_nil_r.
Qed.

Lemma empty_wordlist_empties_the_log_witness :
  text_of
    (main simple_urlparse demo_transport demo_pick (lit "y")
       (demo_args Async)
       (World (<[demo_wordlist := File true true []]> (fs stale_world))
          [] [])).2 demo_output = [].
Proof.
  destruct (empty_wordlist_empties_the_log simple_urlparse demo_transport
              demo_pick (lit "y") (demo_args Async)
              (World (<[demo_wordlist := File true true []]> (fs stale_world))
                 [] []))
    as (_ & Hlog & _).
  - vm_compute. reflexivity.
  - vm_compute. reflexivity.
  - exact Hlog.
Defined.

(** ** The script around a sink that fails *)

Lemma state_eq (s s' : Faults.state) :
  Faults.outside s = Faults.outside s' →
  Faults.success_count s = Faults.success_count s' →
  Faults.log_file s = Faults.log_file s' →
  s = s'.
Proof. destruct s, s'; simpl; congruence. Qed.

Lemma truncated_net (out : str) (w : world) : net (truncated out w) = net w.
Proof. unfold truncated. by destruct (fs w !! out) as [[]|]. Qed.

Lemma truncated_stdout (out : str) (w : world) :
  stdout (truncated out w) = stdout w.
Proof. unfold truncated. by destruct (fs w !! out) as [[]|]. Qed.

(** *** On a terminal and a log that take every line *)

Section SoundSink.

Variable urlparse : str → option (str * str).
Variable transport : nat → str → response.
Variable pick : nat → nat.
Variable f : Faults.faults.
Hypothesis Hsound : Faults.sound_sink f.

Lemma sound_print (m : msg) (s : Faults.state) :
  Faults.print f m s =
  (Ok tt,
   Faults.State (add_stdout [m] (Faults.outside s))
     (Faults.success_count s) (Faults.log_file s)).
Proof.
  unfold Faults.print. destruct Hsound as (Htty & _). by rewrite Htty.
Qed.

Lemma sound_write (p chunk : str) (s : Faults.state) :
  Faults.write f p chunk s =
  (Ok tt,
   Faults.State (Faults.outside s) (Faults.success_count s)
     (Faults.log_file s ++ chunk)).
Proof.
  unfold Faults.write. destruct Hsound as (_ & Hw & _). by rewrite Hw.
Qed.

Lemma sound_close (p : str) (s : Faults.state) :
  Faults.close f p s =
  (Ok tt,
   Faults.State
     (set_fs (alter (node_append (Faults.log_file s)) p) (Faults.outside s))
     (Faults.success_count s) []).
Proof.
  unfold Faults.close. destruct Hsound as (_ & _ & Hc). by rewrite Hc.
Qed.

Lemma faults_open_w (p : str) (w : world) (n : nat) (buf : str) :
  Faults.open_w f p (Faults.State w n buf) =
  match Faults.open_error f p w with
  | Some e => (Raise e, Faults.State w n buf)
  | None => (Ok tt, Faults.State (truncated p w) n [])
  end.
Proof.
  unfold Faults.open_w, Faults.open_error, truncated; simpl.
  destruct (fs w !! p) as [[|r [|] d]|]; reflexivity.
Qed.

Lemma sound_sync_loop (base_url out : str) (payloads : list str) :
  ∀ (i : nat) (s : Faults.state),
    let urls := probe_url base_url <$> payloads in
    Faults.sync_loop transport f base_url out i payloads s =
    (Ok tt,
     Faults.State
       (add_stdout (MGreen <$> hits transport i urls)
          (add_net (sync_events transport i urls) (Faults.outside s)))
       (Faults.success_count s + length (hits transport i urls))
       (Faults.log_file s ++ log_text (hits transport i urls))).
Proof.
  induction payloads as [|payload payloads IH]; intros i s; simpl.
  - unfold mret, Faults.F_ret. f_equal. apply state_eq; simpl.
    + apply world_eq; simpl; by rewrite ?app_nil_r.
    + apply plus_n_O.
    + by rewrite app_nil_r.
  - unfold mbind at 1, Faults.F_bind at 1, Faults.try_except.
    unfold mbind at 1, Faults.F_bind at 1, Faults.lift, requests_get.
    unfold mbind, M_bind, emit, raise, mret, M_ret; simpl.
    destruct (transport i (probe_url base_url payload)) as [code|e] eqn:Hr;
      simpl.
    + destruct (code =? 200) eqn:Hc; simpl.
      * unfold Faults.F_bind, Faults.incr_count; simpl.
        rewrite sound_print; simpl. rewrite sound_write; simpl.
        rewrite IH; simpl. f_equal. apply state_eq; simpl.
        -- apply world_eq; simpl; [done| |]; rewrite <- !app_assoc;
             reflexivity.
        -- symmetry; apply Nat.add_succ_r.
        -- rewrite <- !app_assoc; reflexivity.
      * unfold Faults.F_ret; simpl. rewrite IH; simpl. f_equal.
        apply state_eq; simpl; [|done|done].
        apply world_eq; simpl; [done|done|].
        rewrite <- !app_assoc; reflexivity.
    + unfold Faults.F_ret; simpl. rewrite IH; simpl. f_equal.
      apply state_eq; simpl; [|done|done].
      apply world_eq; simpl; [done|done|].
      rewrite <- !app_assoc; reflexivity.
Qed.

Lemma sound_async_loop (out : str) (urls : list str) :
  ∀ (i : nat) (s : Faults.state),
    Faults.async_loop f out
      ((λ '(j, u), fetch_url transport j u) <$> number_from i urls) s =
    (Ok tt,
     Faults.State
       (add_stdout (MGreen <$> hits transport i urls) (Faults.outside s))
       (Faults.success_count s + length (hits transport i urls))
       (Faults.log_file s ++ log_text (hits transport i urls))).
Proof.
  induction urls as [|u urls IH]; intros i s; simpl.
  - unfold mret, Faults.F_ret. f_equal. apply state_eq; simpl.
    + apply world_eq; simpl; by rewrite ?app_nil_r.
    + apply plus_n_O.
    + by rewrite app_nil_r.
  - unfold mbind at 1, Faults.F_bind at 1, fetch_url at 1.
    destruct (transport i u) as [code|e]; simpl.
    + destruct (code =? 200); simpl.
      * unfold mbind, Faults.F_bind, Faults.incr_count; simpl.
        rewrite sound_print; simpl. rewrite sound_write; simpl.
        fold (@mbind Faults.F _). rewrite IH; simpl. f_equal.
        apply state_eq; simpl.
        -- apply world_eq; simpl; [done| |done]; rewrite <- !app_assoc;
             reflexivity.
        -- symmetry; apply Nat.add_succ_r.
        -- rewrite <- !app_assoc; reflexivity.
      * unfold mret, Faults.F_ret; simpl. apply IH.
    + unfold mret, Faults.F_ret; simpl. apply IH.
Qed.

Lemma sound_fuzz (m : mode) (base_url : str) (payloads : list str)
    (out : str) (w : world) (n : nat) (buf : str) :
  let urls := probe_url base_url <$> payloads in
  match m with
  | Sync => Faults.sync_fuzz transport f base_url payloads out
  | Async => Faults.async_fuzz transport pick f base_url payloads out
  end (Faults.State w n buf) =
  match Faults.open_error f out w with
  | Some e => (Raise e, Faults.State w 0 buf)
  | None =>
      (Ok tt,
       Faults.State
         (after_run out (hits transport 0 urls)
            (run_events transport pick m urls) w)
         (length (hits transport 0 urls)) [])
  end.
Proof.
  intros urls. destruct m.
  - unfold Faults.sync_fuzz, Faults.with_open.
    unfold mbind, Faults.F_bind, Faults.assign_count; simpl.
    rewrite faults_open_w.
    destruct (Faults.open_error f out w); [reflexivity|].
    unfold Faults.then_close. rewrite sound_sync_loop, sound_close; simpl.
    rewrite sound_print; simpl. reflexivity.
  - unfold Faults.async_fuzz, Faults.with_open.
    unfold mbind, Faults.F_bind, Faults.assign_count; simpl.
    rewrite faults_open_w.
    destruct (Faults.open_error f out w); [reflexivity|].
    unfold Faults.then_close, Faults.lift; simpl.
    change (map (probe_url base_url) payloads) with urls.
    rewrite gather_run. unfold gathered. rewrite sound_async_loop.
    rewrite sound_close; simpl. rewrite sound_print; simpl.
    reflexivity.
Qed.

Lemma sound_preflight (a : args) (w : world) (n : nat) (buf : str) :
  Faults.preflight urlparse f a (Faults.State w n buf) =
  (if negb (is_valid_url urlparse (url a))
      || negb (contains AT (url a))
      || negb (is_regular w (wordlist a))
   then Exit 1
   else if is_present w (output a) && bool_decide (Faults.stdin f = None)
   then Raise EOFError
   else if Faults.input_error urlparse f a w then Exit 1
   else Ok (readlines (text_of w (wordlist a))),
   Faults.State (add_stdout (Faults.preamble urlparse f a w) w) n buf).
Proof.
  assert (add_stdout [] w = w) as Hid.
  { apply world_eq; simpl; by rewrite ?app_nil_r. }
  destruct Hsound as (Htty & _).
  unfold Faults.preflight, Faults.input, Faults.input_error,
    Faults.preamble, Faults.refused, text_of, is_regular, is_present,
    is_readable.
  unfold mbind, Faults.F_bind, mret, Faults.F_ret, Faults.lift, isfile,
    exists_, Faults.read_line, Faults.try_except, read_lines,
    sys_exit, Faults.print; simpl.
  destruct (is_valid_url urlparse (url a)); simpl; [|by rewrite Htty].
  destruct (contains AT (url a)); simpl; [|by rewrite Htty].
  destruct (fs w !! wordlist a) as [[|r wr data]|] eqn:Hw; simpl;
    try (by rewrite Htty).
  destruct (fs w !! output a) as [node|] eqn:Ho; simpl.
  - rewrite Htty; simpl.
    destruct (Faults.stdin f) as [reply|]; simpl; [|reflexivity].
    unfold declined.
    destruct (bool_decide (lower (strip reply) ≠ lit "y")); simpl.
    + rewrite Htty; simpl. f_equal. apply state_eq; try done.
      apply world_eq; simpl; [done|by rewrite <- app_assoc|done].
    + rewrite Hw. destruct r; simpl; [reflexivity|].
      rewrite Htty; simpl. f_equal. apply state_eq; try done.
      apply world_eq; simpl; [done|by rewrite <- app_assoc|done].
  - rewrite Hw. destruct r; simpl; [by rewrite Hid|].
    by rewrite Htty.
Qed.

(** The driver on a sound sink, gate by gate. *)
Lemma sound_main (a : args) (w : world) :
  let w0 := add_stdout (Faults.preamble urlparse f a w) w in
  Faults.run (Faults.main urlparse transport pick f a) w =
  match Faults.ending urlparse f a w with
  | Ok _ =>
      (Ok tt,
       after_run (output a) (hits transport 0 (probes a w))
         (run_events transport pick (fuzz_mode a) (probes a w)) w0)
  | Exit c => (Exit c, w0)
  | Raise e => (Raise e, w0)
  end.
Proof.
  intros w0. unfold Faults.run, Faults.main.
  unfold mbind at 1, Faults.F_bind at 1. rewrite sound_preflight.
  unfold Faults.ending.
  destruct (negb (is_valid_url urlparse (url a))
            || negb (contains AT (url a))
            || negb (is_regular w (wordlist a))); [reflexivity|].
  destruct (is_present w (output a) && bool_decide (Faults.stdin f = None));
    [reflexivity|].
  destruct (Faults.input_error urlparse f a w); [reflexivity|].
  rewrite sound_fuzz. subst w0.
  change (Faults.open_error f (output a)
            (add_stdout (Faults.preamble urlparse f a w) w))
    with (Faults.open_error f (output a) w).
  destruct (Faults.open_error f (output a) w); reflexivity.
Qed.

End SoundSink.

Lemma sound_is_sound (reply : str) : Faults.sound_sink (Faults.sound reply).
Proof. by repeat split. Qed.

(** With nothing failing and an operator who answers, the script is the
    one embedded first. *)
Theorem sound_run_is_the_plain_run
    (urlparse : str → option (str * str)) (transport : nat → str → response)
    (pick : nat → nat) (reply : str) (a : args) (w : world) :
  Faults.run (Faults.main urlparse transport pick (Faults.sound reply) a) w =
  main urlparse transport pick reply a w.
Proof.
  rewrite sound_main by apply sound_is_sound. rewrite main_run.
  unfold Faults.ending, Faults.input_error, Faults.preamble, Faults.refused,
    Faults.open_error, input_error, preamble, open_error; simpl.
  rewrite !andb_false_r.
  destruct (is_valid_url urlparse (url a)); simpl; [|done].
  destruct (contains AT (url a)); simpl; [|done].
  destruct (is_regular w (wordlist a)); simpl; [|done].
  destruct (is_present w (output a) && declined reply); simpl; [done|].
  destruct (is_readable w (wordlist a)); simpl; [|done].
  by destruct (fs w !! output a) as [[|? [|] ?]|].
Qed.

(** *** Whatever the sink does *)

(** One guarded request, unfolded. *)
Lemma try_get {A} (t : nat → str → response) (i : nat) (u : str)
    (k : N → Faults.F A) (h : exn → Faults.F A) (s : Faults.state) :
  Faults.try_except (Faults.lift (requests_get t i u) ≫= k) h s =
  match t i u with
  | Status code =>
      Faults.try_except (k code) h
        (Faults.State
           (add_net [Resolved i u (Status code)]
              (add_net [Sent i u] (Faults.outside s)))
           (Faults.success_count s) (Faults.log_file s))
  | Failed e =>
      h e
        (Faults.State
           (add_net [Resolved i u (Failed e)]
              (add_net [Sent i u] (Faults.outside s)))
           (Faults.success_count s) (Faults.log_file s))
  end.
Proof.
  unfold Faults.try_except, mbind, Faults.F_bind, Faults.lift, requests_get,
    mbind, M_bind, emit, raise, mret, M_ret; simpl.
  destruct (t i u); reflexivity.
Qed.

Ltac count_up :=
  first [lia | symmetry; apply Nat.add_succ_r | apply Nat.add_succ_r
        | simpl; lia].

Section AnySink.

Variable urlparse : str → option (str * str).
Variable transport : nat → str → response.
Variable pick : nat → nat.
Variable f : Faults.faults.

(** The sequential loop never raises; it counts every success and
    prints some of them; when no [write] fails it writes some of those it
    printed. *)
Lemma faults_sync_loop (base_url out : str) (payloads : list str) :
  ∀ (i : nat) (s : Faults.state),
    let urls := probe_url base_url <$> payloads in
    ∃ printed buf,
      printed `sublist_of` hits transport i urls
      ∧ Faults.sync_loop transport f base_url out i payloads s =
        (Ok tt,
         Faults.State
           (add_stdout (MGreen <$> printed)
              (add_net (sync_events transport i urls) (Faults.outside s)))
           (Faults.success_count s + length (hits transport i urls))
           buf)
      ∧ ((∀ p b chunk, Faults.write_error f p b chunk = None) →
         ∃ written,
           written `sublist_of` printed
           ∧ buf = Faults.log_file s ++ log_text written).
Proof.
  induction payloads as [|payload payloads IH]; intros i s; simpl.
  - exists [], (Faults.log_file s). split; [done|]. split.
    + unfold mret, Faults.F_ret. f_equal. apply state_eq; simpl.
      * apply world_eq; simpl; by rewrite ?app_nil_r.
      * apply plus_n_O.
      * done.
    + intros _. exists []. by rewrite app_nil_r.
  - unfold mbind at 1, Faults.F_bind at 1. rewrite try_get.
    set (u := probe_url base_url payload).
    destruct (transport i u) as [code|e] eqn:Hr; simpl.
    + destruct (code =? 200) eqn:Hc; simpl.
      * unfold Faults.try_except, mbind, Faults.F_bind, Faults.incr_count,
          Faults.print, Faults.write; simpl.
        destruct (Faults.tty f (stdout (Faults.outside s)) (MGreen u));
          simpl.
        { edestruct IH as (printed & buf & Hp & -> & Hlog).
          exists printed, buf. split; [by apply sublist_cons|]. split.
          - simpl. f_equal. apply state_eq; simpl; [|count_up|done].
            apply world_eq; simpl; [done|done|].
            rewrite <- !app_assoc; reflexivity.
          - intros Hall. destruct (Hlog Hall) as (written & Hw & ->).
            by exists written. }
        destruct (Faults.write_error f out (Faults.log_file s) (u ++ [LF]))
          as [[e kept]|] eqn:Hwr; simpl.
        { edestruct IH as (printed & buf & Hp & -> & Hlog).
          exists (u :: printed), buf. split; [by apply sublist_skip|]. split.
          - simpl. f_equal. apply state_eq; simpl; [|count_up|done].
            apply world_eq; simpl; [done| |]; rewrite <- !app_assoc;
              reflexivity.
          - intros Hall. by rewrite Hall in Hwr. }
        edestruct IH as (printed & buf & Hp & -> & Hlog).
        exists (u :: printed), buf. split; [by apply sublist_skip|]. split.
        -- simpl. f_equal. apply state_eq; simpl; [|count_up|done].
           apply world_eq; simpl; [done| |]; rewrite <- !app_assoc;
             reflexivity.
        -- intros Hall. destruct (Hlog Hall) as (written & Hw & ->).
           exists (u :: written). split; [by apply sublist_skip|].
           simpl. rewrite <- !app_assoc. reflexivity.
      * unfold Faults.try_except, mret, Faults.F_ret; simpl.
        edestruct IH as (printed & buf & Hp & -> & Hlog).
        exists printed, buf. split; [done|]. split; [|done].
        simpl. f_equal. apply state_eq; simpl; [|done|done].
        apply world_eq; simpl; [done|done|].
        rewrite <- !app_assoc; reflexivity.
    + unfold mret, Faults.F_ret; simpl.
      edestruct IH as (printed & buf & Hp & -> & Hlog).
      exists printed, buf. split; [done|]. split; [|done].
      simpl. f_equal. apply state_eq; simpl; [|done|done].
      apply world_eq; simpl; [done|done|].
      rewrite <- !app_assoc; reflexivity.
Qed.

(** The concurrent loop stops at the first failure of the sink; it
    touches neither the files nor the network; when it ends well it has
    counted, printed and written every success. *)
Lemma faults_async_loop (out : str) (urls : list str) :
  ∀ (i : nat) (s : Faults.state),
    ∃ r printed buf n,
      (∀ c, r ≠ Exit c)
      ∧ printed `sublist_of` hits transport i urls
      ∧ (r = Ok tt →
         printed = hits transport i urls
         ∧ buf = Faults.log_file s ++ log_text (hits transport i urls)
         ∧ n = length (hits transport i urls))
      ∧ Faults.async_loop f out
          ((λ '(j, u), fetch_url transport j u) <$> number_from i urls) s =
        (r,
         Faults.State
           (add_stdout (MGreen <$> printed) (Faults.outside s))
           (Faults.success_count s + n)
           buf).
Proof.
  induction urls as [|u urls IH]; intros i s; simpl.
  - exists (Ok tt), [], (Faults.log_file s), 0%nat.
    split; [done|]. split; [done|]. split; [by rewrite app_nil_r|].
    unfold mret, Faults.F_ret. f_equal.
    apply state_eq; simpl; [|count_up|done].
    apply world_eq; simpl; by rewrite ?app_nil_r.
  - unfold mbind at 1, Faults.F_bind at 1, fetch_url at 1.
    destruct (transport i u) as [code|e]; simpl.
    + destruct (code =? 200); simpl.
      * unfold mbind at 1 2, Faults.F_bind at 1 2, Faults.incr_count,
          Faults.print, Faults.write; simpl.
        destruct (Faults.tty f (stdout (Faults.outside s)) (MGreen u))
          as [e|]; simpl.
        { exists (Raise e), [], (Faults.log_file s), 1%nat. split; [done|].
          split; [apply sublist_nil_l|]. split; [done|].
          f_equal. apply state_eq; simpl; [|count_up|done].
          apply world_eq; simpl; by rewrite ?app_nil_r. }
        destruct (Faults.write_error f out (Faults.log_file s) (u ++ [LF]))
          as [[e kept]|]; simpl.
        { exists (Raise e), [u], kept, 1%nat. split; [done|].
          split; [apply sublist_skip, sublist_nil_l|]. split; [done|].
          f_equal. apply state_eq; simpl; [done|count_up|done]. }
        edestruct IH as (r & printed & buf & n & Hr & Hp & Hok & ->).
        exists r, (u :: printed), buf, (S n).
        split; [done|]. split; [by apply sublist_skip|]. split.
        { intros Hrok. destruct (Hok Hrok) as (-> & -> & ->). simpl.
          split; [done|]. split; [|done].
          rewrite <- !app_assoc. reflexivity. }
        simpl. f_equal. apply state_eq; simpl; [|count_up|done].
        apply world_eq; simpl; [done| |done]; rewrite <- !app_assoc;
          reflexivity.
      * unfold mret, Faults.F_ret; simpl. apply IH.
    + unfold mret, Faults.F_ret; simpl. apply IH.
Qed.

(** One run of either engine, whatever fails: it never leaves through
    [sys.exit]; when the log cannot be opened nothing happens; otherwise
    every request goes out and only the output is written; a run that
    completes has reported the number of successes, and, in concurrent
    mode or when no [write] fails, has left a subsequence of them in the
    log (all of them in concurrent mode). *)
Lemma faults_fuzz (m : mode) (base_url : str) (payloads : list str)
    (out : str) (w : world) (n : nat) (buf : str) :
  let urls := probe_url base_url <$> payloads in
  ∃ r s',
    match m with
    | Sync => Faults.sync_fuzz transport f base_url payloads out
    | Async => Faults.async_fuzz transport pick f base_url payloads out
    end (Faults.State w n buf) = (r, s')
    ∧ (∀ c, r ≠ Exit c)
    ∧ match Faults.open_error f out w with
      | Some e => r = Raise e ∧ Faults.outside s' = w
      | None =>
          net (Faults.outside s') =
          net w ++ run_events transport pick m urls
          ∧ (∀ p, p ≠ out → fs (Faults.outside s') !! p = fs w !! p)
          ∧ (r = Ok tt →
             last (stdout (Faults.outside s')) =
             Some (MSummary (length (hits transport 0 urls)))
             ∧ (m = Async ∨ (∀ p b chunk, Faults.write_error f p b chunk = None) →
                ∃ written,
                  written `sublist_of` hits transport 0 urls
                  ∧ (m = Async → written = hits transport 0 urls)
                  ∧ text_of (Faults.outside s') out = log_text written))
      end.
Proof.
  intros urls.
  assert (∀ (kept : str) (w1 : world) (p : str),
            fs w1 = fs (truncated out w) → p ≠ out →
            alter (node_append kept) out (fs w1) !! p = fs w !! p) as Hframe.
  { intros kept w1 p Hw1 Hne. rewrite lookup_alter_ne, Hw1 by done.
    by apply truncated_frame. }
  assert (∀ (text : str) (w1 : world),
            fs w1 = fs (truncated out w) →
            text_of (set_fs (alter (node_append text) out) w1) out = text)
    as Htext.
  { intros text w1 Hw1. unfold text_of; simpl.
    rewrite lookup_alter_eq, Hw1.
    destruct (truncated_lookup out w) as [r ->]. reflexivity. }
  destruct m.
  - unfold Faults.sync_fuzz, Faults.with_open.
    unfold mbind, Faults.F_bind, Faults.assign_count; simpl.
    rewrite faults_open_w.
    destruct (Faults.open_error f out w) as [e|]; [by eauto 10|].
    unfold Faults.then_close.
    destruct (faults_sync_loop base_url out payloads 0
                (Faults.State (truncated out w) 0 []))
      as (printed & buf1 & Hp & -> & Hlog).
    fold urls. unfold Faults.close; simpl.
    destruct (Faults.close_error f out buf1) as [[e kept]|]; simpl.
    { eexists _, _. split; [reflexivity|]. split; [done|]. simpl.
      rewrite truncated_net. split; [done|]. split; [|done].
      intros p Hne. by apply Hframe. }
    unfold Faults.print; simpl.
    destruct (Faults.tty f _ _) as [e|]; simpl.
    { eexists _, _. split; [reflexivity|]. split; [done|]. simpl.
      rewrite truncated_net. split; [done|]. split; [|done].
      intros p Hne. by apply Hframe. }
    eexists _, _. split; [reflexivity|]. split; [done|]. simpl.
    rewrite truncated_net. split; [done|].
    split; [intros p Hne; by apply Hframe|].
    intros _. split; [by rewrite last_snoc|].
    intros [Hm|Hall]; [done|].
    destruct (Hlog Hall) as (written & Hw & ->). exists written.
    split; [by etrans|]. split; [done|]. by apply Htext.
  - unfold Faults.async_fuzz, Faults.with_open.
    unfold mbind, Faults.F_bind, Faults.assign_count; simpl.
    rewrite faults_open_w.
    destruct (Faults.open_error f out w) as [e|]; [by eauto 10|].
    unfold Faults.then_close, Faults.lift; simpl.
    change (map (probe_url base_url) payloads) with urls.
    rewrite gather_run. unfold gathered.
    destruct (faults_async_loop out urls 0
                (Faults.State
                   (add_net (async_events transport pick urls)
                      (truncated out w)) 0 []))
      as (r & printed & buf1 & k & Hr & Hp & Hok & ->).
    unfold Faults.close; simpl.
    destruct (Faults.close_error f out buf1) as [[e kept]|]; simpl.
    { eexists _, _. split; [reflexivity|]. split; [done|]. simpl.
      rewrite truncated_net. split; [done|]. split; [|done].
      intros p Hne. by apply Hframe. }
    destruct r as [[]|c|e]; simpl.
    + destruct (Hok eq_refl) as (-> & -> & ->).
      unfold Faults.print; simpl.
      destruct (Faults.tty f _ _) as [e|]; simpl.
      { eexists _, _. split; [reflexivity|]. split; [done|]. simpl.
        rewrite truncated_net. split; [done|]. split; [|done].
        intros p Hne. by apply Hframe. }
      eexists _, _. split; [reflexivity|]. split; [done|]. simpl.
      rewrite truncated_net. split; [done|].
      split; [intros p Hne; by apply Hframe|].
      intros _. split; [by rewrite last_snoc|]. intros _.
      exists (hits transport 0 urls). split; [done|]. split; [done|].
      by apply Htext.
    + by destruct (Hr c).
    + eexists _, _. split; [reflexivity|]. split; [done|]. simpl.
      rewrite truncated_net. split; [done|]. split; [|done].
      intros p Hne. by apply Hframe.
Qed.

(** The gates, whatever fails: they touch neither the files, nor the
    network, nor the locals; they let through exactly the runs without
    input error, with the lines of the wordlist; and [sys.exit] is what
    they answer to an input error, with status 1. *)
Lemma faults_preflight (a : args) (w : world) (n : nat) (buf : str) :
  ∃ r w',
    Faults.preflight urlparse f a (Faults.State w n buf) =
    (r, Faults.State w' n buf)
    ∧ fs w' = fs w
    ∧ net w' = net w
    ∧ match r with
      | Ok payloads =>
          Faults.input_error urlparse f a w = false
          ∧ payloads = readlines (text_of w (wordlist a))
      | Exit c => c = 1%Z ∧ Faults.input_error urlparse f a w = true
      | Raise e => True
      end.
Proof.
  unfold Faults.preflight, Faults.input, Faults.input_error, Faults.refused,
    text_of, is_regular, is_present, is_readable.
  unfold mbind, Faults.F_bind, mret, Faults.F_ret, Faults.lift, isfile,
    exists_, Faults.read_line, Faults.try_except, read_lines,
    sys_exit, Faults.print; simpl.
  destruct (is_valid_url urlparse (url a)); simpl;
    [|destruct (Faults.tty f _ _); simpl; by eauto 10].
  destruct (contains AT (url a)); simpl;
    [|destruct (Faults.tty f _ _); simpl; by eauto 10].
  destruct (fs w !! wordlist a) as [[|r wr data]|] eqn:Hw; simpl;
    try (destruct (Faults.tty f _ _); simpl; by eauto 10).
  destruct (fs w !! output a) as [node|] eqn:Ho; simpl.
  - destruct (Faults.tty f _ _); simpl; [by eauto 10|].
    destruct (Faults.stdin f) as [reply|]; simpl; [|by eauto 10].
    unfold declined.
    destruct (bool_decide (lower (strip reply) ≠ lit "y")); simpl.
    + destruct (Faults.tty f _ _); simpl; by eauto 10.
    + rewrite Hw. destruct r; simpl; [by eauto 10|].
      destruct (Faults.tty f _ _); simpl; by eauto 10.
  - rewrite Hw. destruct r; simpl; [by eauto 10|].
    destruct (Faults.tty f _ _); simpl; by eauto 10.
Qed.

(** The driver, whatever fails. *)
Lemma faults_main (a : args) (w : world) :
  ∃ r w',
    Faults.run (Faults.main urlparse transport pick f a) w = (r, w')
    ∧ (∀ c, r = Exit c →
            c = 1%Z ∧ Faults.input_error urlparse f a w = true
            ∧ fs w' = fs w ∧ net w' = net w)
    ∧ (Faults.input_error urlparse f a w = true → r ≠ Ok tt)
    ∧ (∀ p, p ≠ output a → fs w' !! p = fs w !! p)
    ∧ (r = Ok tt →
       net w' = net w ++ run_events transport pick (fuzz_mode a) (probes a w)
       ∧ last (stdout w') =
         Some (MSummary (length (hits transport 0 (probes a w))))
       ∧ (fuzz_mode a = Async
          ∨ (∀ p b chunk, Faults.write_error f p b chunk = None) →
          ∃ written,
            written `sublist_of` hits transport 0 (probes a w)
            ∧ (fuzz_mode a = Async → written = hits transport 0 (probes a w))
            ∧ text_of w' (output a) = log_text written)).
Proof.
  unfold Faults.run, Faults.main. unfold mbind at 1, Faults.F_bind at 1.
  destruct (faults_preflight a w 0 []) as (r0 & w0 & -> & Hfs & Hnet & Hr0).
  destruct r0 as [payloads|c|e]; simpl.
  - destruct Hr0 as [Hin ->].
    destruct (faults_fuzz (fuzz_mode a) (url a)
                (readlines (text_of w (wordlist a))) (output a) w0 0 [])
      as (r & s' & -> & Hexit & Hrun).
    simpl in Hrun. fold (probes a w) in Hrun.
    exists r, (Faults.outside s'). split; [done|].
    split; [intros c ->; by destruct (Hexit c)|].
    split; [by rewrite Hin|].
    assert (Faults.open_error f (output a) w0 =
            Faults.open_error f (output a) w) as Hopen.
    { unfold Faults.open_error. by rewrite Hfs. }
    rewrite Hopen in Hrun.
    destruct (Faults.open_error f (output a) w) as [e|].
    + destruct Hrun as [-> ->]. split; [|done].
      intros p _. by rewrite Hfs.
    + destruct Hrun as (Hn & Hframe & Hdone). split.
      { intros p Hne. rewrite Hframe by done. by rewrite Hfs. }
      intros Hok. split; [by rewrite Hn, Hnet|]. by apply Hdone.
  - destruct Hr0 as [-> Hin]. exists (Exit 1), w0. split; [done|].
    split; [by intros c [= <-]|]. split; [done|].
    split; [|done]. intros p _. by rewrite Hfs.
  - exists (Raise e), w0. split; [done|]. split; [done|].
    split; [done|]. split; [|done]. intros p _. by rewrite Hfs.
Qed.

End AnySink.

(** *** What does not depend on the errors of the transport *)

Section Alike.

Variable f : Faults.faults.

Lemma agree_refl (s : Faults.state) : Faults.agree s s.
Proof. by repeat split. Qed.

Lemma alike_ret {A} (a : A) : Faults.alike (mret a) (mret a).
Proof. by intros s s' H. Qed.

Lemma alike_bind {A B} (m m' : Faults.F A) (k k' : A → Faults.F B) :
  Faults.alike m m' → (∀ a, Faults.alike (k a) (k' a)) →
  Faults.alike (m ≫= k) (m' ≫= k').
Proof.
  intros Hm Hk s s' Hs. destruct (Hm s s' Hs) as [Hr Hs'].
  unfold mbind, Faults.F_bind.
  destruct (m s) as [r s1], (m' s') as [r' s1']; simpl in *. subst r'.
  destruct r; simpl; [by apply Hk|done|done].
Qed.

Lemma alike_try {A} (body body' : Faults.F A)
    (handler handler' : exn → Faults.F A) :
  Faults.alike body body' → (∀ e, Faults.alike (handler e) (handler' e)) →
  Faults.alike (Faults.try_except body handler)
    (Faults.try_except body' handler').
Proof.
  intros Hm Hk s s' Hs. destruct (Hm s s' Hs) as [Hr Hs'].
  unfold Faults.try_except.
  destruct (body s) as [r s1], (body' s') as [r' s1']; simpl in *. subst r'.
  destruct r; simpl; [done|done|by apply Hk].
Qed.

Lemma alike_print (m : msg) : Faults.alike (Faults.print f m) (Faults.print f m).
Proof.
  intros s s' (Hfs & Hout & Hn & Hbuf). unfold Faults.print. rewrite Hout.
  destruct (Faults.tty f _ m); simpl; [done|].
  repeat split; simpl; congruence.
Qed.

Lemma alike_write (p chunk : str) :
  Faults.alike (Faults.write f p chunk) (Faults.write f p chunk).
Proof.
  intros s s' (Hfs & Hout & Hn & Hbuf). unfold Faults.write. rewrite Hbuf.
  destruct (Faults.write_error f p _ chunk) as [[e kept]|]; simpl;
    repeat split; simpl; congruence.
Qed.

Lemma alike_close (p : str) : Faults.alike (Faults.close f p) (Faults.close f p).
Proof.
  intros s s' (Hfs & Hout & Hn & Hbuf). unfold Faults.close. rewrite Hbuf.
  destruct (Faults.close_error f p _) as [[e kept]|]; simpl;
    repeat split; simpl; congruence.
Qed.

Lemma alike_open (p : str) : Faults.alike (Faults.open_w f p) (Faults.open_w f p).
Proof.
  intros s s' (Hfs & Hout & Hn & Hbuf). unfold Faults.open_w. rewrite Hfs.
  destruct (fs (Faults.outside s') !! p) as [[|r [|] d]|]; simpl;
    try (repeat split; simpl; congruence).
  destruct (Faults.creatable f p); simpl; repeat split; simpl; congruence.
Qed.

Lemma alike_then_close {A} (p : str) (body body' : Faults.F A) :
  Faults.alike body body' →
  Faults.alike (Faults.then_close f p body) (Faults.then_close f p body').
Proof.
  intros Hm s s' Hs. destruct (Hm s s' Hs) as [Hr Hs'].
  unfold Faults.then_close.
  destruct (body s) as [r s1], (body' s') as [r' s1']; simpl in *. subst r'.
  destruct (alike_close p s1 s1' Hs') as [Hc Hs''].
  destruct (Faults.close f p s1) as [rc s2],
    (Faults.close f p s1') as [rc' s2']; simpl in *. subst rc'.
  by destruct rc.
Qed.

Lemma alike_incr : Faults.alike Faults.incr_count Faults.incr_count.
Proof.
  intros s s' (Hfs & Hout & Hn & Hbuf). repeat split; simpl; congruence.
Qed.

Lemma alike_assign (n : nat) :
  Faults.alike (Faults.assign_count n) (Faults.assign_count n).
Proof.
  intros s s' (Hfs & Hout & Hn & Hbuf). repeat split; simpl; congruence.
Qed.

Lemma alike_read_count : Faults.alike Faults.read_count Faults.read_count.
Proof.
  intros s s' (Hfs & Hout & Hn & Hbuf). repeat split; simpl; congruence.
Qed.

Lemma alike_read_line : Faults.alike (Faults.read_line f) (Faults.read_line f).
Proof.
  intros s s' Hs. unfold Faults.read_line. by destruct (Faults.stdin f).
Qed.

Lemma alike_exit {A} (c : Z) :
  Faults.alike (Faults.lift (sys_exit (A:=A) c)) (Faults.lift (sys_exit c)).
Proof.
  intros s s' (Hfs & Hout & Hn & Hbuf). repeat split; simpl; congruence.
Qed.

Lemma alike_isfile (p : str) :
  Faults.alike (Faults.lift (isfile p)) (Faults.lift (isfile p)).
Proof.
  intros s s' (Hfs & Hout & Hn & Hbuf). unfold Faults.lift, isfile; simpl.
  rewrite Hfs. repeat split; simpl; congruence.
Qed.

Lemma alike_exists (p : str) :
  Faults.alike (Faults.lift (exists_ p)) (Faults.lift (exists_ p)).
Proof.
  intros s s' (Hfs & Hout & Hn & Hbuf). unfold Faults.lift, exists_; simpl.
  rewrite Hfs. repeat split; simpl; congruence.
Qed.

Lemma alike_read_lines (p : str) :
  Faults.alike (Faults.lift (read_lines p)) (Faults.lift (read_lines p)).
Proof.
  intros s s' (Hfs & Hout & Hn & Hbuf). unfold Faults.lift, read_lines; simpl.
  rewrite Hfs.
  destruct (fs (Faults.outside s') !! p) as [[|[|] wr d]|]; simpl;
    repeat split; simpl; congruence.
Qed.

Lemma alike_preflight urlparse (a : args) :
  Faults.alike (Faults.preflight urlparse f a) (Faults.preflight urlparse f a).
Proof.
  unfold Faults.preflight, Faults.input.
  repeat first
    [ apply alike_bind; [|intros ?]
    | apply alike_try; [|intros ?]
    | apply alike_print | apply alike_exit | apply alike_isfile
    | apply alike_exists | apply alike_read_lines | apply alike_read_line
    | apply alike_ret
    | match goal with |- Faults.alike (if ?b then _ else _) _ => destruct b end ].
Qed.

Variable transport : nat → str → response.
Variable pick : nat → nat.

Lemma alike_record (out u : str) :
  Faults.alike
    (Faults.incr_count;; Faults.print f (MGreen u);;
     Faults.write f out (u ++ [LF]))
    (Faults.incr_count;; Faults.print f (MGreen u);;
     Faults.write f out (u ++ [LF])).
Proof.
  apply alike_bind; [apply alike_incr|intros _].
  apply alike_bind; [apply alike_print|intros _]. apply alike_write.
Qed.

(** A probe that fails and a probe answered with 404 leave the same
    trace at the sink. *)
Lemma alike_sync_loop (base_url out : str) (payloads : list str) :
  ∀ i,
    Faults.alike
      (Faults.sync_loop transport f base_url out i payloads)
      (Faults.sync_loop (mask 404 transport) f base_url out i payloads).
Proof.
  induction payloads as [|payload payloads IH]; intros i; simpl.
  - apply alike_ret.
  - apply alike_bind; [|intros _; apply IH].
    set (u := probe_url base_url payload). intros s s' Hs.
    rewrite !try_get. unfold mask.
    destruct Hs as (Hfs & Hout & Hn & Hbuf).
    destruct (transport i u) as [code|e]; simpl.
    + apply alike_try; [|intros _; apply alike_ret|by repeat split].
      destruct (code =? 200); [apply alike_record|apply alike_ret].
    + by repeat split.
Qed.

Lemma alike_async_loop (out : str) (urls : list str) :
  ∀ i,
    Faults.alike
      (Faults.async_loop f out
         ((λ '(j, u), fetch_url transport j u) <$> number_from i urls))
      (Faults.async_loop f out
         ((λ '(j, u), fetch_url (mask 404 transport) j u)
            <$> number_from i urls)).
Proof.
  induction urls as [|u urls IH]; intros i; simpl.
  - apply alike_ret.
  - apply alike_bind; [|intros _; apply IH].
    unfold fetch_url, mask. destruct (transport i u) as [code|e]; simpl.
    + destruct (code =? 200); [apply alike_record|apply alike_ret].
    + apply alike_ret.
Qed.

Lemma alike_fuzz (m : mode) (base_url : str) (payloads : list str)
    (out : str) :
  Faults.alike
    match m with
    | Sync => Faults.sync_fuzz transport f base_url payloads out
    | Async => Faults.async_fuzz transport pick f base_url payloads out
    end
    match m with
    | Sync => Faults.sync_fuzz (mask 404 transport) f base_url payloads out
    | Async =>
        Faults.async_fuzz (mask 404 transport) pick f base_url payloads out
    end.
Proof.
  destruct m.
  - unfold Faults.sync_fuzz, Faults.with_open.
    apply alike_bind; [apply alike_assign|intros _].
    apply alike_bind.
    + apply alike_bind; [apply alike_open|intros _].
      apply alike_then_close, alike_sync_loop.
    + intros _. apply alike_bind; [apply alike_read_count|intros n].
      apply alike_print.
  - unfold Faults.async_fuzz, Faults.with_open.
    apply alike_bind; [apply alike_assign|intros _].
    apply alike_bind.
    + apply alike_bind; [apply alike_open|intros _].
      apply alike_then_close. intros s s' Hs.
      unfold mbind, Faults.F_bind, Faults.lift. rewrite !gather_run.
      unfold gathered. apply alike_async_loop.
      destruct Hs as (? & ? & ? & ?). by repeat split.
    + intros _. apply alike_bind; [apply alike_read_count|intros n].
      apply alike_print.
Qed.

Lemma alike_main urlparse (a : args) :
  Faults.alike (Faults.main urlparse transport pick f a)
    (Faults.main urlparse (mask 404 transport) pick f a).
Proof.
  unfold Faults.main.
  apply alike_bind; [apply alike_preflight|intros payloads].
  apply (alike_fuzz (fuzz_mode a)).
Qed.

End Alike.

(** ** Properties of the specification, with a sink that can fail *)

(** C2 (the code departs from the claim): in sequential mode the count
    is incremented before [print] and [write], inside a [try] that
    swallows what they raise.  On a terminal that encodes ASCII only,
    with three payloads all answered with 200 of which the second is not
    ASCII, the run completes, the summary reports 3 and the log holds 2
    lines. *)
Theorem sync_count_exceeds_the_lines_written :
  let r :=
    Faults.run
      (Faults.sync_fuzz Faults.always_200
         (Faults.ascii_terminal (lit "y")) demo_url
         Faults.accented_payloads demo_output) demo_world in
  r.1 = Ok tt
  ∧ last (stdout r.2) = Some (MSummary 3)
  ∧ text_of r.2 demo_output =
    log_text [lit "http://example.test/a"; lit "http://example.test/c"]
  ∧ count LF (text_of r.2 demo_output) = 2%nat.
Proof. vm_compute. repeat split. Qed.

(** C3, as amended: a transport error never aborts the run nor another
    probe, is not retried and shows nowhere.  On the same terminal,
    operator and disk, failing or not, the process ends, prints and
    writes as if every failed probe had been answered with a 404; once
    the log is open every payload is requested exactly once, in either
    mode; and a completed run of the driver has sent one request per
    line.  With a terminal and a log that take every line, the process
    ends at a gate, at the prompt when nobody answers, at the opening of
    the output or after a completed run, and where it ends does not
    depend on the transport: whatever else aborts it is a failure of the
    terminal or of the log. *)
Theorem transport_errors_never_reach_the_sink
    (urlparse : str → option (str * str)) (transport : nat → str → response)
    (pick : nat → nat) (f : Faults.faults) (a : args) (w : world) :
  let r := Faults.run (Faults.main urlparse transport pick f a) w in
  let r404 :=
    Faults.run (Faults.main urlparse (mask 404 transport) pick f a) w in
  (r.1 = r404.1 ∧ stdout r.2 = stdout r404.2 ∧ fs r.2 = fs r404.2)
  ∧ (∀ (base_url : str) (payloads : list str) (out : str) (w' : world),
       Faults.open_error f out w' = None →
       sent_urls
         (net (Faults.run
                 (Faults.sync_fuzz transport f base_url payloads out) w').2) =
       sent_urls (net w') ++ (probe_url base_url <$> payloads)
       ∧ sent_urls
           (net (Faults.run
                   (Faults.async_fuzz transport pick f base_url payloads out)
                   w').2) =
         sent_urls (net w') ++ (probe_url base_url <$> payloads))
  ∧ (r.1 = Ok tt → sent_urls (net r.2) = sent_urls (net w) ++ probes a w)
  ∧ (Faults.sound_sink f → r.1 = Faults.ending urlparse f a w).
Proof.
  intros r r404. subst r r404. split; [|split; [|split]].
  - destruct (alike_main f transport pick urlparse a
                (Faults.State w 0 []) (Faults.State w 0 []) (agree_refl _))
      as (Hr & Hfs & Hout & _).
    unfold Faults.run.
    destruct (Faults.main urlparse transport pick f a _) as [r s];
      destruct (Faults.main urlparse (mask 404 transport) pick f a _)
        as [r' s']; simpl in *. done.
  - intros base_url payloads out w' Hopen. split.
    + destruct (faults_fuzz transport pick f Sync base_url payloads out w' 0 [])
        as (r & s' & Hrun & _ & Hcase). simpl in Hrun.
      unfold Faults.run. rewrite Hrun, Hopen in *. simpl.
      destruct Hcase as (-> & _).
      by rewrite sent_urls_app, (sent_urls_run transport pick Sync).
    + destruct (faults_fuzz transport pick f Async base_url payloads out w' 0 [])
        as (r & s' & Hrun & _ & Hcase). simpl in Hrun.
      unfold Faults.run. rewrite Hrun, Hopen in *. simpl.
      destruct Hcase as (-> & _).
      by rewrite sent_urls_app, (sent_urls_run transport pick Async).
  - destruct (faults_main urlparse transport pick f a w)
      as (r & w' & -> & _ & _ & _ & Hok). simpl. intros Hr.
    destruct (Hok Hr) as (-> & _).
    by rewrite sent_urls_app, sent_urls_run.
  - intros Hsound. rewrite sound_main by done.
    by destruct (Faults.ending urlparse f a w) as [[]| |].
Qed.

(** The process aborts although no input error occurred: the output
    path names a file that may not be written; nobody answers the
    overwrite prompt; the closing flush fails on a full device, after
    every probe; [print] fails in the concurrent loop, after every
    probe. *)
Lemma abort_without_input_error :
  let w_old :=
    World (<[ demo_output := File true true (lit "old") ]> (fs demo_world))
      [] [] in
  let r_full :=
    Faults.run
      (Faults.main simple_urlparse demo_transport demo_pick
         (Faults.full_device (lit "y")) (demo_args Sync)) demo_world in
  let r_tty :=
    Faults.run
      (Faults.main simple_urlparse Faults.always_200 demo_pick
         (Faults.ascii_terminal (lit "y")) (demo_args Async))
      Faults.accented_world in
  ((Faults.run
      (Faults.main simple_urlparse dead_transport demo_pick
         (Faults.sound (lit "y")) (demo_args Async)) readonly_world).1 =
   Raise PermissionError
   ∧ Faults.input_error simple_urlparse (Faults.sound (lit "y"))
       (demo_args Async) readonly_world = false)
  ∧ ((Faults.run
        (Faults.main simple_urlparse demo_transport demo_pick
           Faults.no_operator (demo_args Sync)) w_old).1 = Raise EOFError
     ∧ Faults.input_error simple_urlparse Faults.no_operator
         (demo_args Sync) w_old = false)
  ∧ (r_full.1 = Raise OSError
     ∧ length (sent_urls (net r_full.2)) = 3%nat
     ∧ Faults.input_error simple_urlparse (Faults.full_device (lit "y"))
         (demo_args Sync) demo_world = false)
  ∧ (r_tty.1 = Raise UnicodeEncodeError
     ∧ length (sent_urls (net r_tty.2)) = 3%nat
     ∧ Faults.input_error simple_urlparse (Faults.ascii_terminal (lit "y"))
         (demo_args Async) Faults.accented_world = false).
Proof. vm_compute. repeat split. Qed.



(** C10, as amended: with the same template, payloads and transport
    responses, and a terminal and a log that take every line, the
    concurrent run and the sequential run are the same at the sink: they
    end alike, leave the same files and print the same lines, the
    successful URLs in the order of the payloads whatever the order of
    arrival. *)
Theorem async_matches_sync_on_a_sound_sink
    (urlparse : str → option (str * str)) (transport : nat → str → response)
    (pick : nat → nat) (f : Faults.faults) (u wl o : str) (w : world) :
  Faults.sound_sink f →
  let rs :=
    Faults.run (Faults.main urlparse transport pick f (Args u wl o Sync)) w in
  let ra :=
    Faults.run (Faults.main urlparse transport pick f (Args u wl o Async)) w in
  (rs.1 = ra.1 ∧ fs rs.2 = fs ra.2 ∧ stdout rs.2 = stdout ra.2)
  ∧ (∀ (base_url : str) (payloads : list str) (out : str) (w : world),
       let s :=
         Faults.run (Faults.sync_fuzz transport f base_url payloads out) w in
       let a :=
         Faults.run
           (Faults.async_fuzz transport pick f base_url payloads out) w in
       let succ := hits transport 0 (probe_url base_url <$> payloads) in
       s.1 = a.1 ∧ fs s.2 = fs a.2 ∧ stdout s.2 = stdout a.2
       ∧ stdout a.2 =
         stdout w ++
         match Faults.open_error f out w with
         | Some _ => []
         | None => (MGreen <$> succ) ++ [MSummary (length succ)]
         end
       ∧ text_of a.2 out =
         match Faults.open_error f out w with
         | Some _ => text_of w out
         | None => log_text succ
         end).
Proof.
  intros Hsound rs ra. subst rs ra. split.
  - rewrite !sound_main by done.
    change (Faults.ending urlparse f (Args u wl o Async) w)
      with (Faults.ending urlparse f (Args u wl o Sync) w).
    destruct (Faults.ending urlparse f (Args u wl o Sync) w) as [[]| |];
      [|done|done].
    cbn [fst snd]. split; [done|]. split; [reflexivity|].
    by rewrite !after_run_stdout.
  - intros base_url payloads out w' s a succ. subst s a succ.
    unfold Faults.run.
    rewrite (sound_fuzz transport pick f Hsound Sync),
      (sound_fuzz transport pick f Hsound Async).
    destruct (Faults.open_error f out w'); cbn [fst snd Faults.outside].
    + by rewrite app_nil_r.
    + split; [done|]. split; [reflexivity|].
      by rewrite !after_run_stdout, after_run_log.
Qed.

Lemma async_matches_sync_on_a_sound_sink_witness :
  (Faults.run
     (Faults.main simple_urlparse demo_transport demo_pick
        (Faults.sound (lit "y"))
        (Args demo_url demo_wordlist demo_output Sync)) demo_world).1 =
  (Faults.run
     (Faults.main simple_urlparse demo_transport demo_pick
        (Faults.sound (lit "y"))
        (Args demo_url demo_wordlist demo_output Async)) demo_world).1.
Proof.
  destruct (async_matches_sync_on_a_sound_sink simple_urlparse
              demo_transport demo_pick (Faults.sound (lit "y"))
              demo_url demo_wordlist demo_output demo_world
              (sound_is_sound _)) as ((Hr & _) & _).
  exact Hr.
Defined.

(** On a terminal that encodes ASCII only, with a payload that is not
    ASCII answered with 200, the sequential run swallows the failure of
    [print] and completes, and the concurrent run aborts. *)
Lemma sync_completes_where_async_aborts :
  (Faults.run
     (Faults.main simple_urlparse Faults.always_200 demo_pick
        (Faults.ascii_terminal (lit "y")) (demo_args Sync))
     Faults.accented_world).1 = Ok tt
  ∧ (Faults.run
       (Faults.main simple_urlparse Faults.always_200 demo_pick
          (Faults.ascii_terminal (lit "y")) (demo_args Async))
       Faults.accented_world).1 = Raise UnicodeEncodeError.
Proof. split; vm_compute; reflexivity. Qed.

(** ** Further properties, with a sink that can fail *)

(** X1: a run that a gate of the driver ends through [sys.exit] has
    changed no file and sent no request, whatever the terminal does. *)
Theorem exit_leaves_the_world_alone
    (urlparse : str → option (str * str)) (transport : nat → str → response)
    (pick : nat → nat) (f : Faults.faults) (a : args) (w : world) (c : Z) :
  (Faults.run (Faults.main urlparse transport pick f a) w).1 = Exit c →
  fs (Faults.run (Faults.main urlparse transport pick f a) w).2 = fs w
  ∧ net (Faults.run (Faults.main urlparse transport pick f a) w).2 = net w.
Proof.
  destruct (faults_main urlparse transport pick f a w)
    as (r & w' & -> & Hexit & _). simpl. intros ->.
  by destruct (Hexit c eq_refl) as (_ & _ & ? & ?).
Qed.

Lemma exit_leaves_the_world_alone_witness :
  fs (Faults.run
        (Faults.main simple_urlparse demo_transport demo_pick
           (Faults.ascii_terminal (lit "no")) (demo_args Sync))
        readonly_world).2 = fs readonly_world.
Proof.
  apply (exit_leaves_the_world_alone simple_urlparse demo_transport demo_pick
           (Faults.ascii_terminal (lit "no")) (demo_args Sync) readonly_world
           1).
  vm_compute. reflexivity.
Defined.

(** X3: on a terminal that works and with an operator who answers, a
    run whose gates pass but whose output cannot be opened ends with the
    exception of [open], having sent no request and printed no summary;
    the operator was asked to confirm exactly when the output path
    existed, so that a path in a missing directory fails unprompted. *)
Theorem unopenable_output_fails_before_any_request
    (urlparse : str → option (str * str)) (transport : nat → str → response)
    (pick : nat → nat) (f : Faults.faults) (a : args) (w : world)
    (reply : str) (e : exn) :
  Faults.sound_sink f →
  Faults.stdin f = Some reply →
  Faults.input_error urlparse f a w = false →
  Faults.open_error f (output a) w = Some e →
  Faults.run (Faults.main urlparse transport pick f a) w =
  (Raise e,
   add_stdout (if is_present w (output a) then [MPrompt (output a)] else [])
     w).
Proof.
  intros Hsound Hin Hie Hopen. rewrite sound_main by done.
  unfold Faults.ending, Faults.preamble. rewrite Hie, Hopen, Hin.
  unfold Faults.input_error, Faults.refused in Hie. rewrite Hin in Hie.
  rewrite (bool_decide_eq_false_2 (Some reply = None)) by done.
  rewrite !andb_false_r.
  destruct (is_valid_url urlparse (url a)); [|done].
  destruct (contains AT (url a)); [|done].
  destruct (is_regular w (wordlist a)); [|done]. simpl in *.
  unfold Faults.refused. rewrite Hin.
  destruct (is_present w (output a) && declined reply); [done|].
  destruct (is_readable w (wordlist a)); [|done].
  by rewrite app_nil_r.
Qed.

Lemma unopenable_output_fails_before_any_request_witness :
  Faults.run
    (Faults.main simple_urlparse demo_transport demo_pick
       (Faults.missing_parent (lit "y")) (demo_args Sync)) demo_world =
  (Raise FileNotFoundError, add_stdout [] demo_world).
Proof.
  apply (unopenable_output_fails_before_any_request simple_urlparse
           demo_transport demo_pick (Faults.missing_parent (lit "y"))
           (demo_args Sync) demo_world (lit "y") FileNotFoundError).
  - by repeat split.
  - reflexivity.
  - vm_compute. reflexivity.
  - vm_compute. reflexivity.
Defined.



(** X11: on a terminal and a log that take every line, when every probe
    is answered with 200 both modes print and log the URL of every
    payload, in the order of the payloads, duplicates and blank payloads
    included, and report the number of payloads. *)
Theorem sound_sink_records_every_200
    (transport : nat → str → response) (pick : nat → nat)
    (f : Faults.faults) (base_url : str) (payloads : list str) (out : str)
    (w : world) :
  Faults.sound_sink f →
  Faults.open_error f out w = None →
  (∀ i u, transport i u = Status 200) →
  let urls := probe_url base_url <$> payloads in
  let ws :=
    (Faults.run (Faults.sync_fuzz transport f base_url payloads out) w).2 in
  let wa :=
    (Faults.run (Faults.async_fuzz transport pick f base_url payloads out)
       w).2 in
  text_of ws out = log_text urls
  ∧ stdout ws = stdout w ++ (MGreen <$> urls) ++ [MSummary (length payloads)]
  ∧ text_of wa out = log_text urls
  ∧ stdout wa = stdout w ++ (MGreen <$> urls) ++ [MSummary (length payloads)].
Proof.
  intros Hsound Hopen Hall urls ws wa. subst ws wa. unfold Faults.run.
  rewrite (sound_fuzz transport pick f Hsound Sync),
    (sound_fuzz transport pick f Hsound Async), Hopen.
  cbn [snd Faults.outside].
  rewrite !after_run_log, !after_run_stdout, hits_all by done.
  fold urls. replace (length urls) with (length payloads); [done|].
  unfold urls. by rewrite length_fmap.
Qed.

Lemma sound_sink_records_every_200_witness :
  text_of
    (Faults.run
       (Faults.sync_fuzz Faults.always_200 (Faults.sound (lit "y")) demo_url
          Faults.accented_payloads demo_output) demo_world).2 demo_output =
  log_text (probe_url demo_url <$> Faults.accented_payloads).
Proof.
  destruct (sound_sink_records_every_200 Faults.always_200 demo_pick
              (Faults.sound (lit "y")) demo_url Faults.accented_payloads
              demo_output demo_world) as (Hlog & _).
  - apply sound_is_sound.
  - vm_compute. reflexivity.
  - reflexivity.
  - exact Hlog.
Defined.

(** X14: on a terminal and a log that take every line, a completed run
    of the driver whose template holds no line terminator leaves a log
    with exactly one line per success: the number of line terminators in
    the file is the count of the summary. *)
Theorem sound_sink_gives_one_line_per_success
    (urlparse : str → option (str * str)) (transport : nat → str → response)
    (pick : nat → nat) (f : Faults.faults) (a : args) (w : world) :
  Faults.sound_sink f →
  LF ∉ url a →
  (Faults.run (Faults.main urlparse transport pick f a) w).1 = Ok tt →
  ∃ n,
    last (stdout (Faults.run (Faults.main urlparse transport pick f a) w).2) =
    Some (MSummary n)
    ∧ count LF
        (text_of (Faults.run (Faults.main urlparse transport pick f a) w).2
           (output a)) = n.
Proof.
  intros Hsound Hurl. rewrite sound_main by done.
  destruct (Faults.ending urlparse f a w) as [[]| |]; [|done|done].
  cbn [fst snd]. intros _.
  exists (length (hits transport 0 (probes a w))).
  rewrite after_run_stdout, last_app_snoc, after_run_log.
  split; [done|]. apply log_text_lines, Forall_forall. intros u Hu.
  eapply elem_of_sublist in Hu; [|apply hits_sublist].
  unfold probes in Hu. apply list_elem_of_fmap in Hu as (line & -> & Hline).
  unfold probe_url. apply replace_single_keeps_out; [|done].
  by eapply readlines_strip_no_LF.
Qed.

Lemma sound_sink_gives_one_line_per_success_witness :
  ∃ n,
    last (stdout
            (Faults.run
               (Faults.main simple_urlparse demo_transport demo_pick
                  (Faults.sound (lit "y")) (demo_args Async)) demo_world).2) =
    Some (MSummary n)
    ∧ count LF
        (text_of
           (Faults.run
              (Faults.main simple_urlparse demo_transport demo_pick
                 (Faults.sound (lit "y")) (demo_args Async)) demo_world).2
           demo_output) = n.
Proof.
  apply (sound_sink_gives_one_line_per_success simple_urlparse demo_transport
           demo_pick (Faults.sound (lit "y")) (demo_args Async) demo_world).
  - apply sound_is_sound.
  - refine (bool_decide_unpack _ _). vm_compute. exact I.
  - vm_compute. reflexivity.
Defined.
